(** * try-nestjs-worker-thread: salt search over a pool of worker threads

    A shallow embedding of [src/app.service.ts] (the coordinator:
    [heavyComputation], [spawn], [terminate]), of [src/salt.worker.ts] (the
    scan each worker thread runs), of [src/class/worker-message.ts] (the
    response protocol) and of [src/app.controller.ts] (the [GET /heavy]
    boundary).

    Numbers are JavaScript numbers that only ever hold integers here; they
    are modelled as [Z] (exact below 2^53, far above the constants the
    program uses).  The keccak/address test of the worker is a parameter
    [probe : Z -> bool].  The event loop is modelled by explicit state
    passing: the coordinator state is a [Pool], and the environment supplies
    the order in which worker events reach the main thread. *)

From Stdlib Require Import ZArith Lia String Sorted.
From stdpp Require Import base option list strings gmap.

Local Open Scope Z_scope.

(** ** Data model *)

(** [class Message] of app.service.ts: the task posted to a worker. *)
Record Message := {
  workerNumber : Z;
  offset : Z;
  max : Z
}.

(** worker-message.ts *)
Record WorkerSuccessResp := {
  salt : Z;
  address : string
}.

Record WorkerErrorResp := {
  message : string
}.

Record WorkerResp := {
  isSuccess : bool;
  data : option WorkerSuccessResp;
  error : option WorkerErrorResp
}.

(** What actually travels over a worker's channel.  The coordinator types
    the message as [WorkerResp]; salt.worker.ts posts the object literal
    [{ salt: i }] and the object [new Error('Not Found')]. *)
Inductive Payload :=
| PResp (r : WorkerResp)
| PSalt (i : Z)
| PError (msg : string).

#[global] Instance WorkerSuccessResp_eq_dec : EqDecision WorkerSuccessResp.
Proof. solve_decision. Defined.
#[global] Instance WorkerErrorResp_eq_dec : EqDecision WorkerErrorResp.
Proof. solve_decision. Defined.
#[global] Instance WorkerResp_eq_dec : EqDecision WorkerResp.
Proof. solve_decision. Defined.
#[global] Instance Payload_eq_dec : EqDecision Payload.
Proof. solve_decision. Defined.
#[global] Instance Message_eq_dec : EqDecision Message.
Proof. solve_decision. Defined.

(** [msg.isSuccess]: [None] is JavaScript's [undefined] (the property is
    absent from [{ salt }] and from an [Error]). *)
Definition isSuccess_of (m : Payload) : option bool :=
  match m with
  | PResp r => Some (isSuccess r)
  | PSalt _ => None
  | PError _ => None
  end.

(** Truthiness of a boolean-or-undefined value, as tested by [if (...)]. *)
Definition truthy (v : option bool) : bool :=
  match v with
  | Some b => b
  | None => false
  end.

(** The text a failure message carries: [error.message] of a [WorkerResp],
    [message] of an [Error]. *)
Definition reason_of (m : Payload) : option string :=
  match m with
  | PResp r => message <$> error r
  | PSalt _ => None
  | PError msg => Some msg
  end.

(** ** salt.worker.ts *)

(** [for (let i = start; i < bound; i += step) body(i)], threading the
    state the body updates.  [None]: the loop is still running when the
    fuel is spent. *)
Fixpoint for_loop {St : Type} (fuel : nat) (i bound step : Z)
    (body : Z → St → St) (s : St) : option St :=
  match fuel with
  | O => None
  | S fuel' =>
      if i <? bound
      then for_loop fuel' (i + step) bound step body (body i s)
      else Some s
  end.

(** Fuel that covers every loop whose step is at least 1. *)
Definition scan_fuel (data : Message) : nat :=
  S (Z.to_nat (max data - offset data)).

(** The body of the worker's loop: a candidate whose address matches is
    posted as [{ salt: i }]; the loop goes on. *)
Definition scan_body (probe : Z → bool) (i : Z) (posted : list Payload)
    : list Payload :=
  if probe i then posted ++ [PSalt i] else posted.

(** [parentPort.on('message', (data: Message) => ...)]: the messages the
    handler posts, in order.  After the loop it posts
    [new Error('Not Found')], whatever the loop did.  [probe] stands for
    the keccak comparison, which is defined on the candidates from 0 to
    2^53 - 1 ([ethers.toBeHex] throws on any other number); the tasks of
    [heavyComputation] never leave that range. *)
Definition on_message (fuel : nat) (probe : Z → bool) (data : Message)
    : option (list Payload) :=
  posted ← for_loop fuel (offset data) (max data) (workerNumber data)
              (scan_body probe) [];
  Some (posted ++ [PError "Not Found"%string]).

(** The candidates the loop of a task visits, in order: the same loop with
    a body that records [i]. *)
Definition candidates (fuel : nat) (data : Message) : option (list Z) :=
  for_loop fuel (offset data) (max data) (workerNumber data)
    (λ i seen, seen ++ [i]) [].

(** The worker run with the fuel that suffices for a positive stride. *)
Definition worker_posts (probe : Z → bool) (data : Message)
    : option (list Payload) :=
  on_message (scan_fuel data) probe data.

Definition worker_scans (data : Message) : option (list Z) :=
  candidates (scan_fuel data) data.

(** ** app.service.ts: the coordinator *)

(** Why a worker's promise was rejected: [reject(msg)] in the message
    handler, the ['error'] event, or
    [new Error(`Worker stopped with exitcode ${code}`)]. *)
Inductive Reason :=
| RMessage (m : Payload)
| RErrorEvent (e : string)
| RExitCode (code : Z).

Inductive PromiseState :=
| Pending
| Fulfilled (v : Payload)
| Rejected (r : Reason).

Inductive Liveness := Running | Stopped.

(** A [Worker] object of worker_threads as the main thread sees it: which
    of the three [once] listeners of [spawn] are still registered, and
    whether the thread is still executing. *)
Record Worker := {
  onMessage : bool;
  onError : bool;
  onExit : bool;
  liveness : Liveness
}.

(** Method calls the coordinator makes on its workers, in program order. *)
Inductive Call :=
| CallPostMessage (i : nat) (msg : Message)
| CallRemoveAllListeners (i : nat)
| CallTerminate (i : nat).

(** The locals of [heavyComputation]: the arrays [workers] and [promises]
    (pushed in lockstep, so worker [i] owns promise [i]). *)
Record Pool := {
  workers : list Worker;
  promises : list PromiseState;
  calls : list Call
}.

(** What reaches the main thread from worker [i]. *)
Inductive Event :=
| EvMessage (i : nat) (m : Payload)
| EvError (i : nat) (e : string)
| EvExit (i : nat) (code : Z).

#[global] Instance Reason_eq_dec : EqDecision Reason.
Proof. solve_decision. Defined.
#[global] Instance PromiseState_eq_dec : EqDecision PromiseState.
Proof. solve_decision. Defined.
#[global] Instance Liveness_eq_dec : EqDecision Liveness.
Proof. solve_decision. Defined.
#[global] Instance Worker_eq_dec : EqDecision Worker.
Proof. solve_decision. Defined.
#[global] Instance Call_eq_dec : EqDecision Call.
Proof. solve_decision. Defined.
#[global] Instance Event_eq_dec : EqDecision Event.
Proof. solve_decision. Defined.

Definition set_onMessage (b : bool) (w : Worker) : Worker :=
  {| onMessage := b; onError := onError w; onExit := onExit w;
     liveness := liveness w |}.

Definition set_onError (b : bool) (w : Worker) : Worker :=
  {| onMessage := onMessage w; onError := b; onExit := onExit w;
     liveness := liveness w |}.

Definition set_onExit (b : bool) (w : Worker) : Worker :=
  {| onMessage := onMessage w; onError := onError w; onExit := b;
     liveness := liveness w |}.

Definition set_liveness (l : Liveness) (w : Worker) : Worker :=
  {| onMessage := onMessage w; onError := onError w; onExit := onExit w;
     liveness := l |}.

(** [worker.removeAllListeners()] *)
Definition removeAllListeners (w : Worker) : Worker :=
  {| onMessage := false; onError := false; onExit := false;
     liveness := liveness w |}.

Definition alter_worker (f : Worker → Worker) (i : nat) (p : Pool) : Pool :=
  {| workers := alter f i (workers p); promises := promises p;
     calls := calls p |}.

Definition log_call (c : Call) (p : Pool) : Pool :=
  {| workers := workers p; promises := promises p; calls := calls p ++ [c] |}.

(** [resolve]/[reject] of promise [i]: only the first settlement counts. *)
Definition settle (i : nat) (st : PromiseState) (p : Pool) : Pool :=
  match promises p !! i with
  | Some Pending =>
      {| workers := workers p; promises := <[i := st]> (promises p);
         calls := calls p |}
  | _ => p
  end.

(** The three listeners [spawn] registers. *)
Definition message_handler (i : nat) (msg : Payload) (p : Pool) : Pool :=
  if truthy (isSuccess_of msg)
  then settle i (Fulfilled msg) p
  else settle i (Rejected (RMessage msg)) p.

Definition error_handler (i : nat) (e : string) (p : Pool) : Pool :=
  settle i (Rejected (RErrorEvent e)) p.

Definition exit_handler (i : nat) (code : Z) (p : Pool) : Pool :=
  if decide (code ≠ 0)
  then settle i (Rejected (RExitCode code)) p
  else p.

(** One event reaching the main thread.  Every listener was registered with
    [once]: it is removed when it fires.  An ['exit'] event also means the
    thread is gone.  Node drops the other listeners of a worker whose
    thread has exited; they are left in place here, which makes no
    difference on the sequences of events that can occur, where nothing
    of a worker follows its own ['exit']. *)
Definition deliver (ev : Event) (p : Pool) : Pool :=
  match ev with
  | EvMessage i m =>
      match workers p !! i with
      | Some w =>
          if onMessage w
          then message_handler i m (alter_worker (set_onMessage false) i p)
          else p
      | None => p
      end
  | EvError i e =>
      match workers p !! i with
      | Some w =>
          if onError w
          then error_handler i e (alter_worker (set_onError false) i p)
          else p
      | None => p
      end
  | EvExit i code =>
      match workers p !! i with
      | Some w =>
          let p' := alter_worker (set_liveness Stopped) i p in
          if onExit w
          then exit_handler i code (alter_worker (set_onExit false) i p')
          else p'
      | None => p
      end
  end.

(** [Promise.any(promises)] as seen after each event: fulfilled by the
    promise that fulfilled (one event settles at most one promise),
    rejected with an AggregateError of all reasons, in index order, once
    every promise is rejected (at once for the empty array). *)
Inductive AnyState :=
| AnyPending
| AnyFulfilled (v : Payload)
| AnyRejected (errors : list Reason).

Definition fulfilment (s : PromiseState) : option Payload :=
  match s with Fulfilled v => Some v | _ => None end.

Definition rejection (s : PromiseState) : option Reason :=
  match s with Rejected r => Some r | _ => None end.

Definition Promise_any (ps : list PromiseState) : AnyState :=
  match omap fulfilment ps with
  | v :: _ => AnyFulfilled v
  | [] =>
      match mapM rejection ps with
      | Some errs => AnyRejected errs
      | None => AnyPending
      end
  end.

(** [await Promise.any(promises)]: events are handled until the combined
    promise settles.  [None]: it is still pending when the environment has
    nothing more to deliver, so the await never completes. *)
Fixpoint await_any (evs : list Event) (p : Pool) : option (AnyState * Pool) :=
  match Promise_any (promises p), evs with
  | AnyPending, [] => None
  | AnyPending, ev :: evs' => await_any evs' (deliver ev p)
  | st, _ => Some (st, p)
  end.

(** [spawn(msg)]: a fresh worker with its three listeners, its pending
    promise, and the task posted to it. *)
Record SpawnWorker := {
  worker : Worker;
  promise : PromiseState
}.

Definition spawn (msg : Message) : SpawnWorker :=
  {| worker := {| onMessage := true; onError := true; onExit := true;
                  liveness := Running |};
     promise := Pending |}.

(** [workers.push(worker); promises.push(promise)] after [spawn(msg)]. *)
Definition push_spawned (msg : Message) (p : Pool) : Pool :=
  let sw := spawn msg in
  {| workers := workers p ++ [worker sw];
     promises := promises p ++ [promise sw];
     calls := calls p ++ [CallPostMessage (length (workers p)) msg] |}.

(** The environment of one run: the events in the order they arrive, and
    the index (if any) at which [new Worker(...)] throws. *)
Record Env := {
  events : list Event;
  spawn_throws_at : option nat
}.

Definition task (workerNum : nat) (bound : Z) (i : nat) : Message :=
  {| workerNumber := Z.of_nat workerNum; offset := Z.of_nat i; max := bound |}.

(** [for (let i = 0; i < workerNum; i++) { spawn; push; push }]; the
    boolean tells whether the loop was left by an exception. *)
Fixpoint spawn_loop (throws_at : option nat) (workerNum : nat) (bound : Z)
    (ids : list nat) (p : Pool) : Pool * bool :=
  match ids with
  | [] => (p, false)
  | i :: rest =>
      if decide (throws_at = Some i) then (p, true)
      else spawn_loop throws_at workerNum bound rest
             (push_spawned (task workerNum bound i) p)
  end.

(** [terminate(workers)].  [workers.map(async (worker) => ...)] runs every
    callback up to its [await]: listeners removed, then [terminate()]
    called, worker after worker.  [Promise.all] then waits for every
    thread to exit; a thread stopped by [terminate()] exits with code 1. *)
Definition begin_terminate (p : Pool) (i : nat) : Pool :=
  log_call (CallTerminate i)
    (log_call (CallRemoveAllListeners i)
       (alter_worker removeAllListeners i p)).

Definition await_exit (p : Pool) (i : nat) : Pool :=
  match workers p !! i with
  | Some w =>
      match liveness w with
      | Running => deliver (EvExit i 1) p
      | Stopped => p
      end
  | None => p
  end.

Definition terminate (p : Pool) : Pool :=
  let ids := seq 0 (length (workers p)) in
  foldl await_exit (foldl begin_terminate p ids) ids.

(** What the [catch] clause receives. *)
Inductive Caught :=
| AggregateError (errors : list Reason)
| SpawnFault (i : nat).

(** The value [heavyComputation] returns ([None] is [undefined]), what its
    [catch] logged, and the pool it leaves behind. *)
Record RunResult := {
  returned : option Payload;
  caught : option Caught;
  final : Pool
}.

Definition empty_pool : Pool :=
  {| workers := []; promises := []; calls := [] |}.

(** [heavyComputation] with its two constants as parameters.  [None]: the
    call never returns. *)
Definition run (workerNum : nat) (bound : Z) (env : Env) : option RunResult :=
  match spawn_loop (spawn_throws_at env) workerNum bound
          (seq 0 workerNum) empty_pool with
  | (p, true) =>
      Some {| returned := None;
              caught := SpawnFault <$> spawn_throws_at env;
              final := terminate p |}
  | (p, false) =>
      match await_any (events env) p with
      | Some (AnyFulfilled v, p') =>
          Some {| returned := Some v; caught := None; final := terminate p' |}
      | Some (AnyRejected errs, p') =>
          Some {| returned := None; caught := Some (AggregateError errs);
                  final := terminate p' |}
      | _ => None
      end
  end.

(** [const workerNum = 5] and [max: 500_000]. *)
Definition heavyComputation (env : Env) : option RunResult :=
  run 5 500000 env.

(** ** app.controller.ts *)

(** [getHeavy]: awaits [heavyComputation], logs the result, and answers
    with the object [{ data: 'ok' }]. *)
Definition getHeavy (env : Env) : option (gmap string string) :=
  _ ← heavyComputation env;
  Some {[ "data"%string := "ok"%string ]}.

(** ** Vocabulary of the properties *)

(** [c] is one of [start, start + step, start + 2 step, ...] below [bound]. *)
Definition on_stride (start bound step c : Z) : Prop :=
  start ≤ c < bound ∧ (c - start) mod step = 0.

(** The worker an event comes from. *)
Definition worker_of (ev : Event) : nat :=
  match ev with
  | EvMessage i _ => i
  | EvError i _ => i
  | EvExit i _ => i
  end.

(** The listener an event fires. *)
Definition listens (ev : Event) (w : Worker) : bool :=
  match ev with
  | EvMessage _ _ => onMessage w
  | EvError _ _ => onError w
  | EvExit _ _ => onExit w
  end.

(** How the listener of an event would settle the worker's promise. *)
Definition verdict (ev : Event) : option PromiseState :=
  match ev with
  | EvMessage _ m =>
      Some (if truthy (isSuccess_of m) then Fulfilled m
            else Rejected (RMessage m))
  | EvError _ e => Some (Rejected (RErrorEvent e))
  | EvExit _ code =>
      if decide (code ≠ 0) then Some (Rejected (RExitCode code)) else None
  end.

(** A run of events, handled one after the other. *)
Definition deliver_all (evs : list Event) (p : Pool) : Pool :=
  foldl (λ p ev, deliver ev p) p evs.

(** The messages of worker [i] among the events, in order of arrival. *)
Definition messages_of (i : nat) (evs : list Event) : list Payload :=
  omap (λ ev, match ev with
              | EvMessage j m => if decide (j = i) then Some m else None
              | _ => None
              end) evs.

(** No worker crashes: all that arrives are messages of the [n] workers. *)
Definition crash_free (n : nat) (evs : list Event) : Prop :=
  Forall (λ ev, match ev with
                | EvMessage i _ => (i < n)%nat
                | _ => False
                end) evs.

(** The events are what [n] workers running salt.worker.ts on the tasks
    of [heavyComputation] send, interleaved in any order. *)
Definition faithful (probe : Z → bool) (n : nat) (bound : Z)
    (evs : list Event) : Prop :=
  crash_free n evs
  ∧ ∀ i, (i < n)%nat →
      worker_posts probe (task n bound i) = Some (messages_of i evs).

(** A worker as [spawn] leaves it, and as [terminate] leaves it. *)
Definition fresh_worker : Worker :=
  {| onMessage := true; onError := true; onExit := true; liveness := Running |}.

Definition dead_worker : Worker :=
  {| onMessage := false; onError := false; onExit := false;
     liveness := Stopped |}.

(** How many workers the spawn loop creates before it ends or throws. *)
Definition spawned_count (workerNum : nat) (throws_at : option nat) : nat :=
  match throws_at with
  | Some k => if decide (k < workerNum)%nat then k else workerNum
  | None => workerNum
  end.

(** The calls of [terminate] on [n] workers. *)
Definition cleanup_calls (n : nat) : list Call :=
  seq 0 n ≫= λ i, [CallRemoveAllListeners i; CallTerminate i].

(** The calls of the spawn loop for its first [k] workers. *)
Definition spawn_calls (workerNum : nat) (bound : Z) (k : nat) : list Call :=
  (λ i, CallPostMessage i (task workerNum bound i)) <$> seq 0 k.

(** Whether the spawn loop of [workerNum] workers is left by an exception. *)
Definition throws_in (workerNum : nat) (throws_at : option nat) : bool :=
  match throws_at with
  | Some k => bool_decide (k < workerNum)%nat
  | None => false
  end.

(** The pool once [k] workers are spawned. *)
Definition spawned_pool (workerNum : nat) (bound : Z) (k : nat) : Pool :=
  {| workers := replicate k fresh_worker;
     promises := replicate k Pending;
     calls := spawn_calls workerNum bound k |}.

(** The spec's PoolResult read off a run's result: [succeeded] is "a value
    was returned", [failureCount] the number of errors in the
    AggregateError the [catch] clause logged. *)
Definition succeeded (out : RunResult) : bool :=
  bool_decide (is_Some (returned out)).

Definition failureCount (out : RunResult) : nat :=
  match caught out with
  | Some (AggregateError errs) => length errs
  | _ => 0%nat
  end.

(** ** Earlier revisions of app.service.ts *)

(** Both earlier revisions register [resolve] itself as the message
    listener, so every message fulfils the promise.  [once] tells how the
    listeners were registered: with [once] (removed when they fire) or
    with [on] (kept).  As in [deliver], the listeners of a worker whose
    thread has exited are left in place. *)
Definition fired (once : bool) (unset : Worker → Worker) (i : nat)
    (p : Pool) : Pool :=
  if once then alter_worker unset i p else p.

Definition deliver_resolving (once : bool) (ev : Event) (p : Pool) : Pool :=
  match ev with
  | EvMessage i m =>
      match workers p !! i with
      | Some w =>
          if onMessage w
          then settle i (Fulfilled m) (fired once (set_onMessage false) i p)
          else p
      | None => p
      end
  | EvError i e =>
      match workers p !! i with
      | Some w =>
          if onError w
          then error_handler i e (fired once (set_onError false) i p)
          else p
      | None => p
      end
  | EvExit i code =>
      match workers p !! i with
      | Some w =>
          let p' := alter_worker (set_liveness Stopped) i p in
          if onExit w
          then exit_handler i code (fired once (set_onExit false) i p')
          else p'
      | None => p
      end
  end.

(** How a listener of the earlier revisions would settle the promise. *)
Definition verdict_resolving (ev : Event) : option PromiseState :=
  match ev with
  | EvMessage _ m => Some (Fulfilled m)
  | _ => verdict ev
  end.

Definition deliver_all_resolving (once : bool) (evs : list Event) (p : Pool)
    : Pool :=
  foldl (λ p ev, deliver_resolving once ev p) p evs.

(** The revision built on [Promise.race]: listeners registered with
    [once], [try]/[finally] without [catch], and a [terminate] that
    awaits the workers one after the other. *)
Module RaceRevision.

(** [Promise.race(promises)] as seen after each event: settled like the
    promise that settled (one event settles at most one); pending for
    ever on the empty array. *)
Definition Promise_race (ps : list PromiseState) : PromiseState :=
  match filter (λ s, s ≠ Pending) ps with
  | s :: _ => s
  | [] => Pending
  end.

Fixpoint await_race (evs : list Event) (p : Pool)
    : option (PromiseState * Pool) :=
  match Promise_race (promises p), evs with
  | Pending, [] => None
  | Pending, ev :: evs' => await_race evs' (deliver_resolving true ev p)
  | st, _ => Some (st, p)
  end.

Definition await_exit (p : Pool) (i : nat) : Pool :=
  match workers p !! i with
  | Some w =>
      match liveness w with
      | Running => deliver_resolving true (EvExit i 1) p
      | Stopped => p
      end
  | None => p
  end.

(** [for (const worker of workers) { worker.removeAllListeners(); await
    worker.terminate() }].  While the exit of worker [i] is awaited the
    event loop runs: [during i] are the events of the other workers that
    arrive in that time, their listeners still registered. *)
Definition terminate_one (during : nat → list Event) (p : Pool) (i : nat)
    : Pool :=
  await_exit (deliver_all_resolving true (during i) (begin_terminate p i)) i.

Definition terminate (during : nat → list Event) (p : Pool) : Pool :=
  foldl (terminate_one during) p (seq 0 (length (workers p))).

(** Without a [catch], a rejection of the race and a failure of
    [new Worker(...)] leave [heavyComputation] as exceptions, after the
    [finally] block. *)
Inductive Thrown :=
| ThrownReason (r : Reason)
| ThrownSpawnFault (i : nat).

Inductive Completion :=
| Returned (v : Payload)
| Threw (t : Thrown).

Record RunResult := {
  completion : Completion;
  final : Pool
}.

(** [heavyComputation] of this revision; the spawn loop is the one of the
    current revision, and it is only left by an exception at the index the
    environment names. *)
Definition run (workerNum : nat) (bound : Z) (env : Env)
    (during : nat → list Event) : option RunResult :=
  match spawn_loop (spawn_throws_at env) workerNum bound
          (seq 0 workerNum) empty_pool with
  | (p, true) =>
      k ← spawn_throws_at env;
      Some {| completion := Threw (ThrownSpawnFault k);
              final := terminate during p |}
  | (p, false) =>
      match await_race (events env) p with
      | Some (Fulfilled v, p') =>
          Some {| completion := Returned v; final := terminate during p' |}
      | Some (Rejected r, p') =>
          Some {| completion := Threw (ThrownReason r);
                  final := terminate during p' |}
      | _ => None
      end
  end.

Definition heavyComputation (env : Env) (during : nat → list Event)
    : option RunResult :=
  run 5 500000 env during.

End RaceRevision.

(** The first revision, built on [Promise.all]: listeners registered
    with [on], no [try], no [terminate].  [spawn] creates its worker
    inside the promise, and the creation is taken to succeed. *)
Module AllRevision.

(** [Promise.all(workers)] as seen after each event: rejected like the
    promise that rejected, fulfilled with all values, in index order, once
    every promise is fulfilled (at once for the empty array). *)
Inductive AllState :=
| AllPending
| AllFulfilled (vs : list Payload)
| AllRejected (r : Reason).

Definition Promise_all (ps : list PromiseState) : AllState :=
  match omap rejection ps with
  | r :: _ => AllRejected r
  | [] =>
      match mapM fulfilment ps with
      | Some vs => AllFulfilled vs
      | None => AllPending
      end
  end.

Fixpoint await_all (evs : list Event) (p : Pool) : option (AllState * Pool) :=
  match Promise_all (promises p), evs with
  | AllPending, [] => None
  | AllPending, ev :: evs' => await_all evs' (deliver_resolving false ev p)
  | st, _ => Some (st, p)
  end.

Inductive Completion :=
| Returned (vs : list Payload)
| Threw (r : Reason).

Record RunResult := {
  completion : Completion;
  final : Pool
}.

(** [heavyComputation] of this revision: spawn, await all, return the
    array of results; a rejection leaves it as an exception. *)
Definition run (workerNum : nat) (bound : Z) (evs : list Event)
    : option RunResult :=
  let p := (spawn_loop None workerNum bound (seq 0 workerNum) empty_pool).1 in
  match await_all evs p with
  | Some (AllFulfilled vs, p') =>
      Some {| completion := Returned vs; final := p' |}
  | Some (AllRejected r, p') =>
      Some {| completion := Threw r; final := p' |}
  | _ => None
  end.

Definition heavyComputation (evs : list Event) : option RunResult :=
  run 5 500000 evs.

End AllRevision.

(** [terminate] together with the events that reach the main thread while
    its [Promise.all] is awaited: they arrive after every callback has run
    up to its [await], that is after [removeAllListeners()] and
    [terminate()] were called on every worker. *)
Definition terminate_during (during : list Event) (p : Pool) : Pool :=
  let ids := seq 0 (length (workers p)) in
  foldl await_exit (deliver_all during (foldl begin_terminate p ids)) ids.

(** ** The worker's loop *)

Section for_loop_facts.
Context {St : Type}.
Implicit Types (body : Z → St → St) (s : St).

Lemma for_loop_unfold fuel i bound step body s :
  for_loop (S fuel) i bound step body s =
    if i <? bound then for_loop fuel (i + step) bound step body (body i s)
    else Some s.
Proof. reflexivity. Qed.

(** With a positive step the loop ends, and [bound - i] iterations of
    fuel are enough. *)
Lemma for_loop_terminates fuel i bound step body s :
  1 ≤ step → (Z.to_nat (bound - i) < fuel)%nat →
  is_Some (for_loop fuel i bound step body s).
Proof.
  intros Hstep. revert i s.
  induction fuel as [|fuel IH]; intros i s Hfuel; [lia|].
  rewrite for_loop_unfold. destruct (Z.ltb_spec i bound); [|by eexists].
  apply IH. lia.
Qed.

(** With a step of 0 or less a loop that starts below its bound never
    ends: no amount of fuel yields a result. *)
Lemma for_loop_diverges fuel i bound step body s :
  step ≤ 0 → i < bound → for_loop fuel i bound step body s = None.
Proof.
  intros Hstep. revert i s.
  induction fuel as [|fuel IH]; intros i s Hlt; [done|].
  rewrite for_loop_unfold. destruct (Z.ltb_spec i bound); [|lia].
  apply IH. lia.
Qed.
End for_loop_facts.

Lemma on_stride_step start bound step c :
  1 ≤ step → start < bound →
  on_stride start bound step c ↔
    c = start ∨ on_stride (start + step) bound step c.
Proof.
  intros Hstep Hlt. unfold on_stride. split.
  - intros [Hc Hmod]. apply Z.mod_divide in Hmod; [|lia].
    destruct Hmod as [k Hk].
    destruct (decide (k = 0)) as [->|Hk0]; [left; lia|right].
    assert (1 ≤ k) by nia. split; [nia|].
    apply Z.mod_divide; [lia|]. exists (k - 1). lia.
  - intros [->|[Hc Hmod]].
    + split; [lia|]. by rewrite Z.sub_diag, Z.mod_0_l by lia.
    + split; [lia|]. apply Z.mod_divide in Hmod; [|lia].
      destruct Hmod as [k Hk]. apply Z.mod_divide; [lia|].
      exists (k + 1). lia.
Qed.

(** The recording loop yields exactly the stride, without repetition, and
    every other body is a left fold over that list. *)
Lemma for_loop_record fuel i bound step acc l :
  1 ≤ step →
  for_loop fuel i bound step (λ c seen, seen ++ [c]) acc = Some l →
  ∃ cs, l = acc ++ cs
    ∧ (∀ c, c ∈ cs ↔ on_stride i bound step c)
    ∧ NoDup cs
    ∧ ∀ (St : Type) (body : Z → St → St) (s : St),
        for_loop fuel i bound step body s = Some (foldl (λ s c, body c s) s cs).
Proof.
  intros Hstep. revert i acc.
  induction fuel as [|fuel IH]; intros i acc Hrun; [done|].
  rewrite for_loop_unfold in Hrun. destruct (Z.ltb_spec i bound) as [Hlt|Hge].
  - destruct (IH _ _ Hrun) as (cs & -> & Hin & Hnd & Hfold).
    exists (i :: cs). split; [by rewrite <- app_assoc|]. split; [|split].
    + intros c. rewrite on_stride_step, elem_of_cons, Hin by done. done.
    + constructor; [|done]. rewrite Hin. unfold on_stride. lia.
    + intros St body s. rewrite for_loop_unfold.
      destruct (Z.ltb_spec i bound); [|lia]. by rewrite Hfold.
  - injection Hrun as <-. exists []. split; [by rewrite app_nil_r|].
    split; [|split].
    + intros c. unfold on_stride. rewrite elem_of_nil. lia.
    + constructor.
    + intros St body s. rewrite for_loop_unfold.
      by destruct (Z.ltb_spec i bound); [lia|].
Qed.

Lemma scan_body_foldl probe cs acc :
  foldl (λ posted c, scan_body probe c posted) acc cs =
    acc ++ (PSalt <$> filter (λ c, probe c = true) cs).
Proof.
  revert acc. induction cs as [|c cs IH]; intros acc; simpl.
  - by rewrite app_nil_r.
  - rewrite IH. unfold scan_body. rewrite filter_cons.
    destruct (probe c); simpl; [by rewrite <- app_assoc|done].
Qed.

(** What a worker does with a task of positive stride: it visits the
    stride, posts one [{ salt }] per matching candidate and then the
    [Error]. *)
Lemma worker_spec probe data :
  1 ≤ workerNumber data →
  ∃ cs, worker_scans data = Some cs
    ∧ (∀ c, c ∈ cs ↔ on_stride (offset data) (max data) (workerNumber data) c)
    ∧ NoDup cs
    ∧ worker_posts probe data =
        Some ((PSalt <$> filter (λ c, probe c = true) cs)
                ++ [PError "Not Found"%string]).
Proof.
  intros Hstep. unfold worker_scans, worker_posts, candidates, on_message.
  destruct (for_loop_terminates (scan_fuel data) (offset data) (max data)
              (workerNumber data) (λ c seen, seen ++ [c]) []) as [l Hl];
    [done|unfold scan_fuel; lia|].
  destruct (for_loop_record _ _ _ _ _ _ Hstep Hl) as (cs & -> & Hin & Hnd & Hfold).
  exists cs. split; [done|]. split; [done|]. split; [done|].
  rewrite Hfold. simpl. by rewrite scan_body_foldl.
Qed.

(** The message count of a worker: one more than the number of matches. *)
Lemma worker_posts_length probe data :
  1 ≤ workerNumber data →
  ∃ cs posted, worker_scans data = Some cs
    ∧ worker_posts probe data = Some posted
    ∧ length posted = S (length (filter (λ c, probe c = true) cs)).
Proof.
  intros Hstep. destruct (worker_spec probe data Hstep) as (cs & Hs & _ & _ & Hp).
  exists cs. eexists. split; [done|]. split; [done|].
  rewrite length_app, length_fmap. simpl. lia.
Qed.

(** A task whose bound is not above its offset: the loop body never runs,
    whatever the stride. *)
Lemma worker_empty_partition probe data :
  max data ≤ offset data →
  worker_scans data = Some []
  ∧ worker_posts probe data = Some [PError "Not Found"%string].
Proof.
  intros Hle. unfold worker_scans, worker_posts, candidates, on_message, scan_fuel.
  rewrite !for_loop_unfold.
  by destruct (Z.ltb_spec (offset data) (max data)); [lia|].
Qed.

(** ** Partition strategy *)

Lemma elem_of_concat {A} (ls : list (list A)) (x : A) :
  x ∈ concat ls ↔ ∃ i l, ls !! i = Some l ∧ x ∈ l.
Proof.
  induction ls as [|l ls IH]; simpl.
  - rewrite elem_of_nil. split; [done|]. by intros (i & l & Hl & _).
  - rewrite elem_of_app, IH. split.
    + intros [Hx|(i & l' & Hl' & Hx)]; [by exists 0%nat, l|by exists (S i), l'].
    + intros ([|i] & l' & Hl' & Hx); simpl in Hl'; [left; congruence|right; eauto].
Qed.

Lemma NoDup_concat {A} (ls : list (list A)) :
  (∀ i l, ls !! i = Some l → NoDup l) →
  (∀ i j li lj x, ls !! i = Some li → ls !! j = Some lj →
     x ∈ li → x ∈ lj → i = j) →
  NoDup (concat ls).
Proof.
  induction ls as [|l ls IH]; intros Hnd Hdisj; simpl; [constructor|].
  apply NoDup_app. split; [by apply (Hnd 0%nat)|]. split.
  - intros x Hx (j & lj & Hlj & Hxj)%elem_of_concat.
    by specialize (Hdisj 0%nat (S j) l lj x eq_refl Hlj Hx Hxj).
  - apply IH.
    + intros i l' Hl'. by apply (Hnd (S i)).
    + intros i j li lj x Hi Hj Hxi Hxj.
      by specialize (Hdisj (S i) (S j) li lj x Hi Hj Hxi Hxj) as [= ->].
Qed.

Lemma on_stride_task_unique (n : nat) (bound v : Z) (i j : nat) :
  (i < n)%nat → (j < n)%nat →
  on_stride (Z.of_nat i) bound (Z.of_nat n) v →
  on_stride (Z.of_nat j) bound (Z.of_nat n) v → i = j.
Proof.
  intros Hi Hj [_ Hmi] [_ Hmj].
  apply Z.mod_divide in Hmi; [|lia]. apply Z.mod_divide in Hmj; [|lia].
  destruct Hmi as [a Ha], Hmj as [b Hb].
  assert (Z.of_nat j - Z.of_nat i = (a - b) * Z.of_nat n) as Hd by lia.
  assert (a - b = 0) by nia. lia.
Qed.

Lemma on_stride_task_cover (n : nat) (bound v : Z) :
  (1 ≤ n)%nat → 0 ≤ v < bound →
  ∃ i, (i < n)%nat ∧ on_stride (Z.of_nat i) bound (Z.of_nat n) v.
Proof.
  intros Hn Hv. exists (Z.to_nat (v mod Z.of_nat n)).
  pose proof (Z.mod_pos_bound v (Z.of_nat n) ltac:(lia)) as Hb.
  split; [lia|]. unfold on_stride. rewrite Z2Nat.id by lia.
  split; [pose proof (Z.mod_le v (Z.of_nat n)); lia|].
  apply Z.mod_divide; [lia|]. exists (v / Z.of_nat n).
  pose proof (Z.div_mod v (Z.of_nat n)). lia.
Qed.

(** C5: for [workerNum ≥ 1] and [bound ≥ 0] the workers' partitions exist
    (every scan ends), worker [i] scans exactly [i, i + workerNum, ...]
    below [bound], the partitions are pairwise disjoint, their union is
    [{0, ..., bound - 1}], and all of them together enumerate that range
    without repetition. *)
Theorem partitions_disjoint_cover (workerNum : nat) (bound : Z) :
  (1 ≤ workerNum)%nat → 0 ≤ bound →
  ∃ parts : list (list Z),
    length parts = workerNum
    ∧ (∀ i, (i < workerNum)%nat →
         worker_scans (task workerNum bound i) = parts !! i)
    ∧ (∀ i cs, parts !! i = Some cs →
         ∀ v, v ∈ cs ↔ on_stride (Z.of_nat i) bound (Z.of_nat workerNum) v)
    ∧ (∀ v, 0 ≤ v < bound ↔ ∃ i cs, parts !! i = Some cs ∧ v ∈ cs)
    ∧ (∀ i j ci cj v, parts !! i = Some ci → parts !! j = Some cj →
         v ∈ ci → v ∈ cj → i = j)
    ∧ concat parts ≡ₚ seqZ 0 bound.
Proof.
  intros Hn Hb.
  set (part := λ i : nat, default [] (worker_scans (task workerNum bound i))).
  assert (Hpart : ∀ i, (i < workerNum)%nat →
    worker_scans (task workerNum bound i) = Some (part i)
    ∧ (∀ v, v ∈ part i ↔ on_stride (Z.of_nat i) bound (Z.of_nat workerNum) v)
    ∧ NoDup (part i)).
  { intros i Hi. unfold part.
    destruct (worker_spec (λ _, false) (task workerNum bound i))
      as (cs & Hs & Hin & Hnd & _); [simpl; lia|].
    rewrite Hs. done. }
  assert (Hlook : ∀ i cs, (part <$> seq 0 workerNum) !! i = Some cs →
    (i < workerNum)%nat ∧ cs = part i).
  { intros i cs. rewrite list_lookup_fmap, fmap_Some.
    intros (k & [-> Hk]%lookup_seq & ->). done. }
  assert (Hcover : ∀ v, 0 ≤ v < bound ↔
    ∃ i cs, (part <$> seq 0 workerNum) !! i = Some cs ∧ v ∈ cs).
  { intros v. split.
    - intros Hv. destruct (on_stride_task_cover workerNum bound v Hn Hv)
        as (i & Hi & Hon).
      exists i, (part i). split; [|by apply Hpart].
      rewrite list_lookup_fmap, (proj2 (lookup_seq 0 workerNum i i)); done.
    - intros (i & cs & [Hi ->]%Hlook & Hv).
      apply Hpart in Hv; [|done]. destruct Hv as [Hv _]. lia. }
  assert (Hdisj : ∀ i j ci cj v,
    (part <$> seq 0 workerNum) !! i = Some ci →
    (part <$> seq 0 workerNum) !! j = Some cj → v ∈ ci → v ∈ cj → i = j).
  { intros i j ci cj v [Hi ->]%Hlook [Hj ->]%Hlook Hvi Hvj.
    apply Hpart in Hvi, Hvj; [|done..].
    by apply (on_stride_task_unique workerNum bound v). }
  exists (part <$> seq 0 workerNum).
  split; [by rewrite length_fmap, length_seq|].
  split; [|split; [|split; [done|split; [done|]]]].
  - intros i Hi. destruct (Hpart i Hi) as [-> _].
    by rewrite list_lookup_fmap, (proj2 (lookup_seq 0 workerNum i i)).
  - intros i cs [Hi ->]%Hlook v. by apply Hpart.
  - apply NoDup_Permutation.
    + apply NoDup_concat; [|done].
      intros i cs [Hi ->]%Hlook. by apply Hpart.
    + apply NoDup_seqZ.
    + intros v. rewrite elem_of_concat, <- Hcover, elem_of_seqZ. lia.
Qed.

Lemma partitions_disjoint_cover_witness :
  ∃ parts : list (list Z),
    length parts = 3%nat
    ∧ (∀ i, (i < 3)%nat → worker_scans (task 3 10 i) = parts !! i)
    ∧ (∀ i cs, parts !! i = Some cs →
         ∀ v, v ∈ cs ↔ on_stride (Z.of_nat i) 10 (Z.of_nat 3) v)
    ∧ (∀ v, 0 ≤ v < 10 ↔ ∃ i cs, parts !! i = Some cs ∧ v ∈ cs)
    ∧ (∀ i j ci cj v, parts !! i = Some ci → parts !! j = Some cj →
         v ∈ ci → v ∈ cj → i = j)
    ∧ concat parts ≡ₚ seqZ 0 10.
Proof. apply (partitions_disjoint_cover 3 10); lia. Defined.

(** ** Search worker *)

(** C1: the worker does not stop at its first match.  On the task
    [{workerNumber: 3, offset: 1, max: 10}] with a probe that accepts only
    4 it posts two messages, [{ salt: 4 }] and then the [Error]; with a
    probe that accepts 1 and 7 it posts three, so candidates after the
    first match are still examined. *)
Theorem worker_posts_after_match :
  worker_posts (λ i, i =? 4) (task 3 10 1)
    = Some [PSalt 4; PError "Not Found"%string]
  ∧ worker_posts (λ i, (i =? 1) || (i =? 7)) (task 3 10 1)
    = Some [PSalt 1; PSalt 7; PError "Not Found"%string].
Proof. split; reflexivity. Qed.

(** C7, as stated, fails: on a partition without a match the worker does
    not send a single message whose reason is "exhausted partition". *)
Lemma exhausted_reason_counterexample :
  ¬ ∃ m, worker_posts (λ _, false) (task 3 10 1) = Some [m]
         ∧ reason_of m = Some "exhausted partition"%string.
Proof. intros (m & [= <-] & Hr). discriminate Hr. Qed.

(** A partition without a match yields the [Error] message alone. *)
Lemma worker_no_match probe data :
  1 ≤ workerNumber data ∨ max data ≤ offset data →
  (∀ c, on_stride (offset data) (max data) (workerNumber data) c →
        probe c = false) →
  worker_posts probe data = Some [PError "Not Found"%string].
Proof.
  intros [Hstep|Hempty] Hno; [|by apply worker_empty_partition].
  destruct (worker_spec probe data Hstep) as (cs & _ & Hin & _ & ->).
  destruct (filter (λ c, probe c = true) cs) as [|c l] eqn:Hf; [done|].
  assert (c ∈ filter (λ c, probe c = true) cs) as Hc by (rewrite Hf; left).
  apply list_elem_of_filter in Hc as [Hp Hc]. apply Hin, Hno in Hc. congruence.
Qed.

(** C7 (amended): a worker whose partition holds no match, the empty
    partition included, posts exactly one message over its channel, the
    [Error] object with message "Not Found"; its handler returns, nothing
    is thrown. *)
Theorem exhausted_partition_posts_not_found probe data :
  1 ≤ workerNumber data ∨ max data ≤ offset data →
  (∀ c, on_stride (offset data) (max data) (workerNumber data) c →
        probe c = false) →
  worker_posts probe data = Some [PError "Not Found"%string]
  ∧ reason_of (PError "Not Found"%string) = Some "Not Found"%string.
Proof. intros Hs Hno. split; [by apply worker_no_match|done]. Qed.

Lemma exhausted_partition_posts_not_found_witness :
  worker_posts (λ _, false) (task 3 10 1) = Some [PError "Not Found"%string]
  ∧ reason_of (PError "Not Found"%string) = Some "Not Found"%string.
Proof.
  apply (exhausted_partition_posts_not_found (λ _, false) (task 3 10 1)).
  - left. simpl. lia.
  - reflexivity.
Defined.

(** ** Event delivery *)

Lemma settle_workers i st p : workers (settle i st p) = workers p.
Proof. unfold settle. by destruct (promises p !! i) as [[]|]. Qed.

Lemma settle_calls i st p : calls (settle i st p) = calls p.
Proof. unfold settle. by destruct (promises p !! i) as [[]|]. Qed.

Lemma settle_promises i st p :
  promises (settle i st p) =
    if decide (promises p !! i = Some Pending)
    then <[i := st]> (promises p) else promises p.
Proof.
  unfold settle. case_decide as Hp; [by rewrite Hp|].
  by destruct (promises p !! i) as [[]|].
Qed.

Lemma verdict_settled ev st : verdict ev = Some st → st ≠ Pending.
Proof.
  destruct ev as [i m|i e|i code]; simpl.
  - intros [= <-]. by destruct (truthy _).
  - by intros [= <-].
  - destruct (decide _); [|done]. by intros [= <-].
Qed.

(** The promises after one event, in one equation. *)
Lemma deliver_promises ev p :
  promises (deliver ev p) =
    match workers p !! worker_of ev, verdict ev with
    | Some w, Some st =>
        if listens ev w && bool_decide (promises p !! worker_of ev = Some Pending)
        then <[worker_of ev := st]> (promises p)
        else promises p
    | _, _ => promises p
    end.
Proof.
  destruct ev as [i m|i e|i code]; simpl;
    destruct (workers p !! i) as [w|] eqn:Hw; try done.
  - destruct (onMessage w); [|done]. unfold message_handler.
    destruct (truthy _); rewrite settle_promises; simpl;
      by case_decide; [rewrite bool_decide_eq_true_2|rewrite bool_decide_eq_false_2].
  - destruct (onError w); [|done]. unfold error_handler.
    rewrite settle_promises; simpl;
      by case_decide; [rewrite bool_decide_eq_true_2|rewrite bool_decide_eq_false_2].
  - unfold exit_handler. destruct (onExit w), (decide (code ≠ 0)); simpl; try done.
    rewrite settle_promises; simpl;
      by case_decide; [rewrite bool_decide_eq_true_2|rewrite bool_decide_eq_false_2].
Qed.

Lemma deliver_calls ev p : calls (deliver ev p) = calls p.
Proof.
  destruct ev as [i m|i e|i code]; simpl;
    destruct (workers p !! i) as [w|]; try done.
  - destruct (onMessage w); [|done]. unfold message_handler.
    by destruct (truthy _); rewrite settle_calls.
  - destruct (onError w); [|done]. unfold error_handler. by rewrite settle_calls.
  - unfold exit_handler. destruct (onExit w); [|done].
    destruct (decide _); [|done]. by rewrite settle_calls.
Qed.

(** The workers after one event: only the sender changes, by losing the
    listener that fired (and by being stopped on ['exit']). *)
Lemma deliver_workers ev p :
  workers (deliver ev p) =
    match ev with
    | EvMessage i _ =>
        alter (λ w, if onMessage w then set_onMessage false w else w) i (workers p)
    | EvError i _ =>
        alter (λ w, if onError w then set_onError false w else w) i (workers p)
    | EvExit i _ =>
        alter (λ w, set_onExit false (set_liveness Stopped w)) i (workers p)
    end.
Proof.
  assert (Hid : ∀ (f : Worker → Worker) i w, workers p !! i = Some w →
            f w = w → alter f i (workers p) = workers p).
  { intros f i w Hw Hf. apply list_eq. intros j.
    destruct (decide (i = j)) as [<-|];
      [rewrite list_lookup_alter_eq, Hw; simpl; by rewrite Hf
      |by rewrite list_lookup_alter_ne]. }
  assert (Hnone : ∀ (f : Worker → Worker) i, workers p !! i = None →
            alter f i (workers p) = workers p).
  { intros f i Hw. apply list_eq. intros j.
    destruct (decide (i = j)) as [<-|];
      [by rewrite list_lookup_alter_eq, Hw|by rewrite list_lookup_alter_ne]. }
  assert (Hext : ∀ (f g : Worker → Worker) i w, workers p !! i = Some w →
            f w = g w → alter f i (workers p) = alter g i (workers p)).
  { intros f g i w Hw Hfg. apply list_eq. intros j.
    destruct (decide (i = j)) as [<-|];
      [rewrite !list_lookup_alter_eq, Hw; simpl; by rewrite Hfg
      |by rewrite !list_lookup_alter_ne]. }
  destruct ev as [i m|i e|i code]; simpl;
    destruct (workers p !! i) as [w|] eqn:Hw; try (by rewrite Hnone).
  - destruct (onMessage w) eqn:Hl.
    + unfold message_handler. destruct (truthy _); rewrite settle_workers; simpl;
        apply (Hext _ _ _ w); by rewrite ?Hl.
    + symmetry. apply (Hid _ _ w); by rewrite ?Hl.
  - destruct (onError w) eqn:Hl.
    + unfold error_handler. rewrite settle_workers; simpl.
      apply (Hext _ _ _ w); by rewrite ?Hl.
    + symmetry. apply (Hid _ _ w); by rewrite ?Hl.
  - destruct (onExit w) eqn:Hl.
    + unfold exit_handler. destruct (decide _); rewrite ?settle_workers; simpl;
        rewrite list_alter_alter_eq; by apply (Hext _ _ _ w).
    + simpl. apply (Hext _ _ _ w); [done|]. destruct w; simpl in *. by subst.
Qed.

Lemma deliver_length_workers ev p :
  length (workers (deliver ev p)) = length (workers p).
Proof. rewrite deliver_workers. destruct ev; apply length_alter. Qed.

Lemma deliver_length_promises ev p :
  length (promises (deliver ev p)) = length (promises p).
Proof.
  rewrite deliver_promises.
  destruct (workers p !! _), (verdict ev); try done.
  destruct (_ && _); [apply length_insert|done].
Qed.

Lemma deliver_worker_ne ev p j :
  j ≠ worker_of ev → workers (deliver ev p) !! j = workers p !! j.
Proof.
  intros Hne. rewrite deliver_workers.
  destruct ev; simpl in *; by rewrite list_lookup_alter_ne.
Qed.

Lemma deliver_promise_ne ev p j :
  j ≠ worker_of ev → promises (deliver ev p) !! j = promises p !! j.
Proof.
  intros Hne. rewrite deliver_promises.
  destruct (workers p !! _), (verdict ev); try done.
  destruct (_ && _); [by rewrite list_lookup_insert_ne|done].
Qed.

(** A promise changes at most once, from [Pending] to the verdict of an
    event of its own worker whose listener was still registered. *)
Lemma deliver_promise_lookup ev p j :
  promises (deliver ev p) !! j = promises p !! j
  ∨ (promises p !! j = Some Pending ∧ worker_of ev = j
     ∧ ∃ st, verdict ev = Some st ∧ promises (deliver ev p) !! j = Some st).
Proof.
  rewrite deliver_promises.
  destruct (workers p !! _) as [w|], (verdict ev) as [st|]; try by left.
  destruct (listens ev w); simpl; [|by left].
  case_bool_decide as Hp; [|by left].
  destruct (decide (j = worker_of ev)) as [->|Hne];
    [|left; by rewrite list_lookup_insert_ne].
  right. split; [done|]. split; [done|]. exists st. split; [done|].
  apply list_lookup_insert_eq. by apply lookup_lt_Some in Hp.
Qed.

Lemma deliver_all_cons ev evs p :
  deliver_all (ev :: evs) p = deliver_all evs (deliver ev p).
Proof. reflexivity. Qed.

Lemma deliver_all_app evs1 evs2 p :
  deliver_all (evs1 ++ evs2) p = deliver_all evs2 (deliver_all evs1 p).
Proof. apply foldl_app. Qed.

Lemma deliver_all_promise_lookup evs p j :
  promises (deliver_all evs p) !! j = promises p !! j
  ∨ (promises p !! j = Some Pending
     ∧ ∃ ev st, ev ∈ evs ∧ worker_of ev = j ∧ verdict ev = Some st
                ∧ promises (deliver_all evs p) !! j = Some st).
Proof.
  revert p. induction evs as [|ev evs IH]; intros p; [by left|].
  rewrite deliver_all_cons.
  destruct (IH (deliver ev p)) as [Heq|(Hpend & ev' & st' & Hin & Hw & Hv & Hst)];
    destruct (deliver_promise_lookup ev p j) as [Heq1|(Hpend1 & Hw1 & st1 & Hv1 & Hst1)].
  - left. congruence.
  - right. split; [done|]. exists ev, st1.
    split; [left|]. split; [done|]. split; [done|]. congruence.
  - right. split; [congruence|]. exists ev', st'.
    split; [by right|]. done.
  - apply verdict_settled in Hv1. congruence.
Qed.

Lemma deliver_all_length_promises evs p :
  length (promises (deliver_all evs p)) = length (promises p).
Proof.
  revert p. induction evs as [|ev evs IH]; intros p; [done|].
  by rewrite deliver_all_cons, IH, deliver_length_promises.
Qed.

Lemma deliver_all_length_workers evs p :
  length (workers (deliver_all evs p)) = length (workers p).
Proof.
  revert p. induction evs as [|ev evs IH]; intros p; [done|].
  by rewrite deliver_all_cons, IH, deliver_length_workers.
Qed.

Lemma deliver_all_calls evs p : calls (deliver_all evs p) = calls p.
Proof.
  revert p. induction evs as [|ev evs IH]; intros p; [done|].
  by rewrite deliver_all_cons, IH, deliver_calls.
Qed.

(** ** Promise.any and the await *)

Lemma Promise_any_fulfilled ps v :
  Promise_any ps = AnyFulfilled v → ∃ j, ps !! j = Some (Fulfilled v).
Proof.
  unfold Promise_any. destruct (omap fulfilment ps) as [|v' l] eqn:Ho.
  - by destruct (mapM rejection ps).
  - intros [= <-].
    assert (v' ∈ omap fulfilment ps) as Hv by (rewrite Ho; left).
    apply list_elem_of_omap in Hv as (s & Hs & Hf).
    destruct s; try done. injection Hf as ->.
    by apply list_elem_of_lookup in Hs.
Qed.

Lemma Promise_any_rejected ps errs :
  Promise_any ps = AnyRejected errs → ps = Rejected <$> errs.
Proof.
  unfold Promise_any. destruct (omap fulfilment ps); [|done].
  destruct (mapM rejection ps) as [errs'|] eqn:Hm; [|done].
  intros [= <-]. apply mapM_Some in Hm.
  induction Hm as [|s r ps errs' Hr _ IH]; [done|].
  destruct s; try done. injection Hr as ->. simpl. by f_equal.
Qed.

Lemma Promise_any_pending ps :
  Promise_any ps = AnyPending → ∃ j, ps !! j = Some Pending.
Proof.
  unfold Promise_any. destruct (omap fulfilment ps) as [|v l] eqn:Ho; [|done].
  destruct (mapM rejection ps) as [errs|] eqn:Hm; [done|]. intros _.
  assert (¬ Forall (is_Some ∘ rejection) ps) as Hnot.
  { intros HF. apply mapM_is_Some_2 in HF. rewrite Hm in HF. by destruct HF. }
  apply not_Forall_Exists in Hnot; [|intros s; apply _].
  apply Exists_exists in Hnot as (s & Hs & Hrej).
  apply list_elem_of_lookup in Hs as [j Hj]. exists j.
  destruct s as [|v|r]; [done| |].
  - assert (v ∈ omap fulfilment ps) as Hv
      by (apply list_elem_of_omap; exists (Fulfilled v);
          split; [by eapply list_elem_of_lookup_2|done]).
    rewrite Ho in Hv. by apply elem_of_nil in Hv.
  - exfalso. apply Hrej. by eexists.
Qed.

(** While some promise is pending and none is fulfilled, [Promise.any]
    is pending. *)
Lemma Promise_any_keeps_racing ps j :
  ps !! j = Some Pending → Forall (λ s, fulfilment s = None) ps →
  Promise_any ps = AnyPending.
Proof.
  intros Hj Hnone. destruct (Promise_any ps) as [|v|errs] eqn:Ha; [done| |].
  - apply Promise_any_fulfilled in Ha as [k Hk].
    eapply Forall_lookup_1 in Hnone; [|done]. done.
  - apply Promise_any_rejected in Ha. subst ps.
    rewrite list_lookup_fmap in Hj. by destruct (errs !! j).
Qed.

(** The first promise to fulfil decides [Promise.any]. *)
Lemma Promise_any_first_fulfilled ps j v :
  (j < length ps)%nat → Forall (λ s, fulfilment s = None) ps →
  Promise_any (<[j := Fulfilled v]> ps) = AnyFulfilled v.
Proof.
  intros Hj Hnone. unfold Promise_any.
  assert (omap fulfilment (<[j := Fulfilled v]> ps) = [v]) as ->; [|done].
  revert j Hj. induction Hnone as [|s ps Hs Hnone IH]; intros j Hj;
    [simpl in Hj; lia|].
  destruct j as [|j]; simpl.
  - f_equal. clear IH Hj. induction Hnone as [|s' ps' Hs' _ IH']; [done|].
    simpl. by rewrite Hs'.
  - rewrite Hs. apply IH. simpl in Hj. lia.
Qed.

(** What a completed await has done: handled a prefix of the events, at
    the end of which [Promise.any] had settled. *)
Lemma await_any_inv evs p st p' :
  await_any evs p = Some (st, p') →
  ∃ pre post, evs = pre ++ post ∧ p' = deliver_all pre p
    ∧ st = Promise_any (promises p') ∧ st ≠ AnyPending.
Proof.
  revert p. induction evs as [|ev evs IH]; intros p; simpl.
  - destruct (Promise_any (promises p)) eqn:Ha; [done|..];
      intros [= <- <-]; exists [], []; by rewrite Ha.
  - destruct (Promise_any (promises p)) eqn:Ha.
    + intros (pre & post & -> & -> & Hst)%IH.
      exists (ev :: pre), post. done.
    + intros [= <- <-]. exists [], (ev :: evs). by rewrite Ha.
    + intros [= <- <-]. exists [], (ev :: evs). by rewrite Ha.
Qed.

Lemma await_any_settled evs p :
  Promise_any (promises p) ≠ AnyPending →
  await_any evs p = Some (Promise_any (promises p), p).
Proof. intros Hs. destruct evs; simpl; by destruct (Promise_any _). Qed.

Lemma await_any_pending ev evs p :
  Promise_any (promises p) = AnyPending →
  await_any (ev :: evs) p = await_any evs (deliver ev p).
Proof. intros Hs. simpl. by rewrite Hs. Qed.

(** Progress: if every promise that is still pending belongs to a worker
    whose message listener is registered and one of whose messages is
    still to come, the await completes. *)
Lemma await_any_completes evs p :
  length (workers p) = length (promises p) →
  (∀ i, promises p !! i = Some Pending →
     ∃ w m, workers p !! i = Some w ∧ onMessage w = true
            ∧ EvMessage i m ∈ evs) →
  is_Some (await_any evs p).
Proof.
  revert p. induction evs as [|ev evs IH]; intros p Hlen Hinv.
  - rewrite await_any_settled; [by eexists|].
    intros [j Hj]%Promise_any_pending.
    destruct (Hinv j Hj) as (w & m & _ & _ & Hin). by apply elem_of_nil in Hin.
  - destruct (Promise_any (promises p)) eqn:Ha;
      [|rewrite await_any_settled; [by eexists|by rewrite Ha]..].
    rewrite await_any_pending by done. apply IH.
    { by rewrite deliver_length_workers, deliver_length_promises. }
    intros i Hi.
    destruct (deliver_promise_lookup ev p i) as [Heq|(_ & _ & st & Hv & Hst)];
      [|rewrite Hst in Hi; injection Hi as ->; by apply verdict_settled in Hv].
    rewrite Heq in Hi. destruct (Hinv i Hi) as (w & m & Hw & Hl & Hin).
    apply elem_of_cons in Hin as [<-|Hin].
    + exfalso. rewrite deliver_promises in Heq. simpl in Heq.
      rewrite Hw in Heq. simpl in Heq. rewrite Hl in Heq.
      rewrite bool_decide_eq_true_2 in Heq by done. simpl in Heq.
      rewrite list_lookup_insert_eq in Heq by (by eapply lookup_lt_Some).
      rewrite Hi in Heq. by destruct (truthy _).
    + rewrite deliver_workers. destruct ev as [k m'|k e|k code].
      * destruct (decide (k = i)) as [->|];
          [|exists w, m; by rewrite list_lookup_alter_ne].
        exfalso. rewrite deliver_promises in Heq. simpl in Heq.
        rewrite Hw in Heq. simpl in Heq. rewrite Hl in Heq.
        rewrite bool_decide_eq_true_2 in Heq by done. simpl in Heq.
        rewrite list_lookup_insert_eq in Heq by (by eapply lookup_lt_Some).
        rewrite Hi in Heq. by destruct (truthy _).
      * destruct (decide (k = i)) as [->|];
          [|exists w, m; by rewrite list_lookup_alter_ne].
        eexists _, m. rewrite list_lookup_alter_eq, Hw. simpl.
        split; [done|]. split; [|done]. by destruct (onError w).
      * destruct (decide (k = i)) as [->|];
          [|exists w, m; by rewrite list_lookup_alter_ne].
        eexists _, m. rewrite list_lookup_alter_eq, Hw. simpl. done.
Qed.

(** ** Spawning and cleanup *)

Lemma spawn_loop_spec t n bound len : ∀ a p p' b,
  length (workers p) = a →
  spawn_loop t n bound (seq a len) p = (p', b) →
  ∃ k, (k ≤ len)%nat
    ∧ workers p' = workers p ++ replicate k fresh_worker
    ∧ promises p' = promises p ++ replicate k Pending
    ∧ calls p' = calls p
                 ++ ((λ i, CallPostMessage i (task n bound i)) <$> seq a k)
    ∧ (if b then t = Some (a + k)%nat ∧ (k < len)%nat
       else k = len ∧ ∀ i, t = Some i → ¬ (a ≤ i < a + len)%nat).
Proof.
  induction len as [|len IH]; intros a p p' b Ha; simpl.
  - intros [= <- <-]. exists 0%nat. simpl. rewrite !app_nil_r.
    repeat split; try done. lia.
  - case_decide as Ht.
    + intros [= <- <-]. exists 0%nat. simpl. rewrite !app_nil_r.
      repeat split; try done; [lia|by rewrite Nat.add_0_r|lia].
    + intros Hrun. apply IH in Hrun; [|simpl; rewrite length_app; simpl; lia].
      destruct Hrun as (k & Hk & Hw & Hp & Hc & Hb). exists (S k).
      split; [lia|]. simpl in *. rewrite <- !app_assoc in Hw, Hp, Hc.
      rewrite Ha in Hc. repeat split; try done.
      destruct b.
      * destruct Hb as [-> Hlt]. split; [f_equal; lia|lia].
      * destruct Hb as [-> Hb]. split; [done|].
        intros i Hi [H1 H2]. destruct (decide (i = a)) as [->|]; [done|].
        apply (Hb i Hi). lia.
Qed.

Lemma spawn_loop_eq t n bound :
  spawn_loop t n bound (seq 0 n) empty_pool =
    (spawned_pool n bound (spawned_count n t), throws_in n t).
Proof.
  destruct (spawn_loop t n bound (seq 0 n) empty_pool) as [p b] eqn:Hrun.
  apply spawn_loop_spec in Hrun as (k & Hk & Hw & Hp & Hc & Hb); [|done].
  simpl in *. assert (k = spawned_count n t ∧ b = throws_in n t) as [-> ->].
  { unfold spawned_count, throws_in. destruct b.
    - destruct Hb as [-> Hlt]. rewrite decide_True, bool_decide_eq_true_2; done.
    - destruct Hb as [-> Hb]. destruct t as [i|]; [|done].
      rewrite decide_False, bool_decide_eq_false_2; [done|..];
        intros Hlt; apply (Hb i eq_refl); lia. }
  f_equal. destruct p; simpl in *. by subst.
Qed.

Lemma foldl_alter_seq {A} (f : A → A) k : ∀ a (l : list A) j,
  foldl (λ l i, alter f i l) l (seq a k) !! j =
    if decide (a ≤ j < a + k)%nat then f <$> l !! j else l !! j.
Proof.
  induction k as [|k IH]; intros a l j; simpl.
  - rewrite decide_False by lia. done.
  - rewrite IH. destruct (decide (j = a)) as [->|Hne].
    + rewrite decide_False, decide_True by lia. apply list_lookup_alter_eq.
    + rewrite list_lookup_alter_ne by done.
      destruct (decide (S a ≤ j < S a + k)%nat);
        [rewrite decide_True by lia|rewrite decide_False by lia]; done.
Qed.

Lemma foldl_alter_all {A} (f : A → A) (l : list A) :
  foldl (λ l i, alter f i l) l (seq 0 (length l)) = f <$> l.
Proof.
  apply list_eq. intros j. rewrite foldl_alter_seq, list_lookup_fmap.
  case_decide as Hj; [done|].
  rewrite (lookup_ge_None_2 l j) by lia. done.
Qed.

Lemma begin_terminate_foldl ids : ∀ p,
  workers (foldl begin_terminate p ids)
    = foldl (λ l i, alter removeAllListeners i l) (workers p) ids
  ∧ promises (foldl begin_terminate p ids) = promises p
  ∧ calls (foldl begin_terminate p ids)
    = calls p ++ (ids ≫= λ i, [CallRemoveAllListeners i; CallTerminate i]).
Proof.
  induction ids as [|i ids IH]; intros p; simpl.
  - by rewrite app_nil_r.
  - destruct (IH (begin_terminate p i)) as (-> & -> & ->). simpl.
    by rewrite <- !app_assoc.
Qed.

(** A worker without an exit listener leaves the promises alone when its
    thread exits. *)
Lemma await_exit_quiet p i :
  (∀ w, workers p !! i = Some w → onExit w = false) →
  workers (await_exit p i) = alter (set_liveness Stopped) i (workers p)
  ∧ promises (await_exit p i) = promises p
  ∧ calls (await_exit p i) = calls p.
Proof.
  intros Hq. unfold await_exit. destruct (workers p !! i) as [w|] eqn:Hw.
  - specialize (Hq w eq_refl). destruct (liveness w) eqn:Hl.
    + simpl. rewrite Hw, Hq. done.
    + split; [|done]. symmetry. apply list_eq. intros j.
      destruct (decide (i = j)) as [<-|];
        [|by rewrite list_lookup_alter_ne].
      rewrite list_lookup_alter_eq, Hw. simpl. f_equal.
      destruct w; simpl in *. by subst.
  - split; [|done]. symmetry. apply list_eq. intros j.
    destruct (decide (i = j)) as [<-|];
      [by rewrite list_lookup_alter_eq, Hw|by rewrite list_lookup_alter_ne].
Qed.

Lemma await_exit_foldl ids : ∀ p,
  Forall (λ w, onExit w = false) (workers p) →
  workers (foldl await_exit p ids)
    = foldl (λ l i, alter (set_liveness Stopped) i l) (workers p) ids
  ∧ promises (foldl await_exit p ids) = promises p
  ∧ calls (foldl await_exit p ids) = calls p.
Proof.
  induction ids as [|i ids IH]; intros p Hq; simpl; [done|].
  destruct (await_exit_quiet p i) as (Hw & Hp & Hc).
  { intros w Hw. by eapply Forall_lookup_1 in Hq. }
  destruct (IH (await_exit p i)) as (-> & -> & ->).
  - rewrite Hw. apply Forall_lookup_2. intros j w.
    destruct (decide (i = j)) as [<-|].
    + rewrite list_lookup_alter_eq. intros (w' & Hw' & ->)%fmap_Some.
      simpl. by eapply Forall_lookup_1 in Hq.
    + rewrite list_lookup_alter_ne by done. intros Hj.
      by eapply Forall_lookup_1 in Hq.
  - by rewrite Hw, Hp, Hc.
Qed.

(** [terminate] in one equation per component: every worker ends without
    listeners and stopped, no promise changes, and the calls are
    [removeAllListeners(); terminate()] worker after worker. *)
Lemma terminate_spec p :
  workers (terminate p) = (λ _, dead_worker) <$> workers p
  ∧ promises (terminate p) = promises p
  ∧ calls (terminate p) = calls p ++ cleanup_calls (length (workers p)).
Proof.
  unfold terminate.
  destruct (begin_terminate_foldl (seq 0 (length (workers p))) p)
    as (Hw & Hp & Hc).
  rewrite foldl_alter_all in Hw.
  destruct (await_exit_foldl (seq 0 (length (workers p)))
              (foldl begin_terminate p (seq 0 (length (workers p)))))
    as (Hw' & Hp' & Hc').
  { rewrite Hw. apply Forall_fmap, Forall_true. done. }
  rewrite Hw', Hp', Hc', Hp, Hc, Hw. split; [|done].
  replace (length (workers p)) with (length (removeAllListeners <$> workers p))
    by apply length_fmap.
  rewrite foldl_alter_all, <- list_fmap_compose. done.
Qed.

(** ** The run as a whole *)

Lemma run_eq n bound env :
  run n bound env =
    if throws_in n (spawn_throws_at env)
    then Some {| returned := None;
                 caught := SpawnFault <$> spawn_throws_at env;
                 final := terminate
                   (spawned_pool n bound
                      (spawned_count n (spawn_throws_at env))) |}
    else match await_any (events env) (spawned_pool n bound n) with
         | Some (AnyFulfilled v, p') =>
             Some {| returned := Some v; caught := None;
                     final := terminate p' |}
         | Some (AnyRejected errs, p') =>
             Some {| returned := None; caught := Some (AggregateError errs);
                     final := terminate p' |}
         | _ => None
         end.
Proof.
  unfold run. rewrite spawn_loop_eq.
  destruct (throws_in n (spawn_throws_at env)) eqn:Ht; [done|].
  replace (spawned_count n (spawn_throws_at env)) with n; [done|].
  unfold spawned_count, throws_in in *. destruct (spawn_throws_at env); [|done].
  apply bool_decide_eq_false in Ht. by rewrite decide_False.
Qed.

Lemma spawned_count_le n t : (spawned_count n t ≤ n)%nat.
Proof. unfold spawned_count. destruct t; [case_decide|]; lia. Qed.

Lemma elem_of_messages_of i m evs :
  m ∈ messages_of i evs ↔ EvMessage i m ∈ evs.
Proof.
  unfold messages_of. rewrite list_elem_of_omap. split.
  - intros ([j m'|j e|j c] & Hin & Heq); try done.
    case_decide; [|done]. by simplify_eq.
  - intros Hin. exists (EvMessage i m). by rewrite decide_True.
Qed.

(** How a completed await over freshly spawned workers came to its result:
    a fulfilment is the verdict of a delivered event, and an
    AggregateError holds one reason per worker, each the verdict of a
    delivered event of that worker. *)
Lemma await_any_outcome n bound evs st p' :
  await_any evs (spawned_pool n bound n) = Some (st, p') →
  length (workers p') = n
  ∧ calls p' = spawn_calls n bound n
  ∧ (∀ v, st = AnyFulfilled v →
       ∃ ev, ev ∈ evs ∧ (worker_of ev < n)%nat
             ∧ verdict ev = Some (Fulfilled v))
  ∧ (∀ errs, st = AnyRejected errs →
       length errs = n
       ∧ ∀ j r, errs !! j = Some r →
           ∃ ev, ev ∈ evs ∧ worker_of ev = j
                 ∧ verdict ev = Some (Rejected r)).
Proof.
  intros (pre & post & -> & -> & Hst & _)%await_any_inv.
  set (p0 := spawned_pool n bound n) in *.
  assert (Hcase : ∀ j s, promises (deliver_all pre p0) !! j = Some s →
    (j < n)%nat ∧ (s = Pending ∨
      ∃ ev, ev ∈ pre ++ post ∧ worker_of ev = j ∧ verdict ev = Some s)).
  { intros j s Hs. split.
    - apply lookup_lt_Some in Hs.
      rewrite deliver_all_length_promises in Hs. simpl in Hs.
      by rewrite length_replicate in Hs.
    - destruct (deliver_all_promise_lookup pre p0 j)
        as [Heq|(_ & ev & s' & Hin & Hw & Hv & Hs')].
      + left. rewrite Heq in Hs. simpl in Hs.
        by apply lookup_replicate in Hs as [-> _].
      + right. exists ev. rewrite elem_of_app. split; [by left|].
        split; [done|]. congruence. }
  split; [by rewrite deliver_all_length_workers; simpl; rewrite length_replicate|].
  split; [by rewrite deliver_all_calls|]. split.
  - intros v ->. symmetry in Hst.
    apply Promise_any_fulfilled in Hst as [j Hj].
    apply Hcase in Hj as [Hlt [|(ev & Hin & <- & Hv)]]; [done|]. by exists ev.
  - intros errs ->. symmetry in Hst. apply Promise_any_rejected in Hst.
    split.
    + rewrite <- (length_fmap Rejected), <- Hst, deliver_all_length_promises.
      simpl. by rewrite length_replicate.
    + intros j r Hr.
      assert (promises (deliver_all pre p0) !! j = Some (Rejected r)) as Hj
        by (by rewrite Hst, list_lookup_fmap, Hr).
      apply Hcase in Hj as [_ [|(ev & Hin & Hw & Hv)]]; [done|]. by exists ev.
Qed.

(** Progress of the whole run: when no spawn fails and every worker gets
    some message through, [heavyComputation] returns. *)
Lemma run_returns n bound env :
  throws_in n (spawn_throws_at env) = false →
  (∀ i, (i < n)%nat → ∃ m, EvMessage i m ∈ events env) →
  is_Some (run n bound env).
Proof.
  intros Ht Hmsg. rewrite run_eq, Ht.
  destruct (await_any_completes (events env) (spawned_pool n bound n))
    as [[st p'] Hrun].
  { simpl. by rewrite !length_replicate. }
  { simpl. intros i [_ Hi]%lookup_replicate.
    destruct (Hmsg i Hi) as [m Hm]. exists fresh_worker, m.
    by rewrite lookup_replicate_2. }
  rewrite Hrun.
  apply await_any_inv in Hrun as (_ & _ & _ & _ & _ & Hst).
  destruct st; [done|by eexists..].
Qed.

(** A spawn that throws is caught: the run still returns. *)
Lemma run_returns_on_spawn_fault n bound env :
  throws_in n (spawn_throws_at env) = true → is_Some (run n bound env).
Proof. intros Ht. rewrite run_eq, Ht. by eexists. Qed.

(** With the worker of this repository on the other end of every channel,
    no message ever carries [isSuccess]: every promise is rejected and the
    run returns [undefined], match or no match. *)
Lemma faithful_run_fails probe n bound env :
  (1 ≤ n)%nat → spawn_throws_at env = None →
  faithful probe n bound (events env) →
  ∃ out errs, run n bound env = Some out
    ∧ returned out = None
    ∧ caught out = Some (AggregateError errs)
    ∧ length errs = n
    ∧ ∀ j r, errs !! j = Some r →
        ∃ m, r = RMessage m ∧ EvMessage j m ∈ events env.
Proof.
  intros Hn Ht [Hcf Hposts].
  assert (Hpayload : ∀ i m, EvMessage i m ∈ events env →
            (i < n)%nat ∧ isSuccess_of m = None).
  { intros i m Hin. pose proof Hin as Hlt.
    eapply Forall_forall in Hlt; [|exact Hcf]. simpl in Hlt. split; [done|].
    apply elem_of_messages_of in Hin.
    destruct (worker_spec probe (task n bound i)) as (cs & _ & _ & _ & Hp);
      [simpl; lia|].
    rewrite (Hposts i Hlt) in Hp. injection Hp as Hp. rewrite Hp in Hin.
    apply elem_of_app in Hin as [Hin|Hin].
    - by apply list_elem_of_fmap in Hin as (c & -> & _).
    - by apply list_elem_of_singleton in Hin as ->. }
  destruct (run_returns n bound env) as [out Hout].
  { unfold throws_in. by rewrite Ht. }
  { intros i Hi. exists (PError "Not Found"%string).
    apply elem_of_messages_of.
    destruct (worker_spec probe (task n bound i)) as (cs & _ & _ & _ & Hp);
      [simpl; lia|].
    rewrite (Hposts i Hi) in Hp. injection Hp as ->.
    apply elem_of_app. right. left. }
  pose proof Hout as Hreturns.
  rewrite run_eq in Hout. unfold throws_in in Hout. rewrite Ht in Hout.
  destruct (await_any (events env) (spawned_pool n bound n))
    as [[st p']|] eqn:Hrun; [|done].
  apply await_any_outcome in Hrun as (_ & _ & Hful & Hrej).
  destruct st as [|v|errs]; [done| |].
  - destruct (Hful v eq_refl) as (ev & Hin & _ & Hv).
    eapply Forall_forall in Hcf as Hev; [|exact Hin].
    destruct ev as [i m| |]; try done.
    apply Hpayload in Hin as [_ Hm]. simpl in Hv. by rewrite Hm in Hv.
  - destruct (Hrej errs eq_refl) as [Hlen Herrs].
    exists out, errs. injection Hout as <-. simpl.
    split; [done|]. split; [done|]. split; [done|]. split; [done|].
    intros j r Hr. destruct (Herrs j r Hr) as (ev & Hin & Hw & Hv).
    eapply Forall_forall in Hcf as Hev; [|exact Hin].
    destruct ev as [i m| |]; try done. simpl in Hw. subst i.
    pose proof (Hpayload _ _ Hin) as [_ Hm]. simpl in Hv. rewrite Hm in Hv.
    injection Hv as <-. by exists m.
Qed.

(** What the pool looks like when [heavyComputation] returns, on every
    path through its [try]/[catch]/[finally]. *)
Lemma run_final n bound env out :
  run n bound env = Some out →
  workers (final out)
    = replicate (spawned_count n (spawn_throws_at env)) dead_worker
  ∧ calls (final out)
    = spawn_calls n bound (spawned_count n (spawn_throws_at env))
      ++ cleanup_calls (spawned_count n (spawn_throws_at env)).
Proof.
  rewrite run_eq. destruct (throws_in n (spawn_throws_at env)) eqn:Ht.
  - intros [= <-]. simpl.
    destruct (terminate_spec (spawned_pool n bound
                (spawned_count n (spawn_throws_at env)))) as (-> & _ & ->).
    simpl. rewrite fmap_replicate, length_replicate. done.
  - assert (spawned_count n (spawn_throws_at env) = n) as ->.
    { unfold spawned_count, throws_in in *.
      destruct (spawn_throws_at env); [|done].
      apply bool_decide_eq_false in Ht. by rewrite decide_False. }
    destruct (await_any (events env) (spawned_pool n bound n))
      as [[st p']|] eqn:Hrun; [|done].
    apply await_any_outcome in Hrun as (Hlen & Hcalls & _).
    assert (workers (terminate p') = replicate n dead_worker
            ∧ calls (terminate p') = spawn_calls n bound n ++ cleanup_calls n)
      as [Hw Hc].
    { destruct (terminate_spec p') as (-> & _ & ->).
      rewrite Hcalls, Hlen. split; [|done].
      rewrite <- Hlen. clear. induction (workers p'); simpl; by f_equal. }
    destruct st; [done|intros [= <-]; done..].
Qed.

(** With the listener still registered, the exit of a terminated thread
    (code 1) would reject a pending promise: this is what
    [removeAllListeners] prevents. *)
Lemma exit_with_listener_rejects p i w :
  workers p !! i = Some w → onExit w = true →
  promises p !! i = Some Pending →
  promises (deliver (EvExit i 1) p) !! i = Some (Rejected (RExitCode 1)).
Proof.
  intros Hw Hl Hp. rewrite deliver_promises. simpl. rewrite Hw. simpl.
  rewrite Hl, bool_decide_eq_true_2 by done. simpl.
  apply list_lookup_insert_eq. by eapply lookup_lt_Some.
Qed.

(** The same for [heavyComputation] itself, with its 5 workers and its
    bound of 500000: whatever the probe accepts, the value returned is
    [undefined]. *)
Lemma heavyComputation_returns_undefined probe env :
  spawn_throws_at env = None →
  faithful probe 5 500000 (events env) →
  ∃ out, heavyComputation env = Some out ∧ returned out = None.
Proof.
  intros Ht Hf.
  destruct (faithful_run_fails probe 5 500000 env) as (out & _ & Hrun & Hret & _);
    [lia|done|done|].
  by exists out.
Qed.

(** The race up to the first successful message: while worker [j] has
    sent nothing and no message was a success, the await is still
    pending, crashes of other workers or not; the success of [j] then
    completes it. *)
Lemma await_any_race j m post pre : ∀ p w,
  promises p !! j = Some Pending →
  workers p !! j = Some w → onMessage w = true →
  truthy (isSuccess_of m) = true →
  Forall (λ s, fulfilment s = None) (promises p) →
  Forall (λ ev, worker_of ev ≠ j ∧ ∀ v, verdict ev ≠ Some (Fulfilled v)) pre →
  await_any pre p = None
  ∧ await_any (pre ++ EvMessage j m :: post) p
    = Some (AnyFulfilled m, deliver (EvMessage j m) (deliver_all pre p)).
Proof.
  induction pre as [|ev pre IH]; intros p w Hj Hw Hl Hm Hnone Hpre.
  - pose proof (Promise_any_keeps_racing _ _ Hj Hnone) as Hrace.
    split; [simpl; by rewrite Hrace|].
    simpl app. rewrite await_any_pending by done.
    assert (promises (deliver (EvMessage j m) p)
            = <[j := Fulfilled m]> (promises p)) as Hp'.
    { rewrite deliver_promises. simpl. rewrite Hw. simpl.
      by rewrite Hl, Hm, bool_decide_eq_true_2. }
    assert (Promise_any (promises (deliver (EvMessage j m) p)) = AnyFulfilled m)
      as Hany.
    { rewrite Hp'. apply Promise_any_first_fulfilled; [|done].
      by eapply lookup_lt_Some. }
    rewrite await_any_settled by (by rewrite Hany). by rewrite Hany.
  - pose proof (Promise_any_keeps_racing _ _ Hj Hnone) as Hrace.
    apply Forall_cons in Hpre as [[Hne Hv] Hpre].
    simpl app. rewrite !await_any_pending by done. rewrite deliver_all_cons.
    apply (IH (deliver ev p) w); try done.
    + by rewrite deliver_promise_ne.
    + by rewrite deliver_worker_ne.
    + apply Forall_lookup_2. intros k s Hk.
      destruct (deliver_promise_lookup ev p k) as [Heq|(_ & _ & st & Hst & Hk')].
      * rewrite Heq in Hk. by eapply Forall_lookup_1 in Hnone.
      * rewrite Hk' in Hk. injection Hk as <-.
        destruct st as [|v|r]; [done| |done]. by destruct (Hv v).
Qed.

(** ** The claims about the coordinator *)

(** C2: with a matching candidate in the keyspace the run does not
    succeed.  For 3 workers, bound 10 and a probe that accepts only 7, the
    events below are what the workers send (worker 1 posts [{ salt: 7 }]
    and then the [Error]); the coordinator rejects every promise, the
    [{ salt: 7 }] message included, and the run returns [undefined]. *)
Theorem found_salt_is_rejected :
  let evs := [EvMessage 0 (PError "Not Found"%string);
              EvMessage 1 (PSalt 7);
              EvMessage 1 (PError "Not Found"%string);
              EvMessage 2 (PError "Not Found"%string)] in
  faithful (λ i, i =? 7) 3 10 evs
  ∧ ∃ out, run 3 10 {| events := evs; spawn_throws_at := None |} = Some out
      ∧ returned out = None
      ∧ caught out = Some (AggregateError
                             [RMessage (PError "Not Found"%string);
                              RMessage (PSalt 7);
                              RMessage (PError "Not Found"%string)]).
Proof.
  split.
  - split; [repeat constructor|].
    intros [|[|[|i]]] Hi; try reflexivity. lia.
  - eexists. split; [reflexivity|]. done.
Qed.

(** C3: for [n ≥ 1] workers running salt.worker.ts without a crash, if no
    candidate below the bound satisfies the probe, [heavyComputation]
    returns normally, with [undefined] ([succeeded = false]) after catching
    an AggregateError of exactly [n] reasons ([failureCount = n]), each the
    worker's "Not Found" message. *)
Theorem no_match_run_fails probe n bound env :
  (1 ≤ n)%nat → 0 ≤ bound → spawn_throws_at env = None →
  faithful probe n bound (events env) →
  (∀ v, 0 ≤ v < bound → probe v = false) →
  ∃ out, run n bound env = Some out
    ∧ succeeded out = false
    ∧ failureCount out = n
    ∧ caught out = Some (AggregateError
        (replicate n (RMessage (PError "Not Found"%string)))).
Proof.
  intros Hn Hb Ht Hf Hno.
  destruct (faithful_run_fails probe n bound env Hn Ht Hf)
    as (out & errs & Hrun & Hret & Hcaught & Hlen & Herrs).
  exists out. split; [done|]. unfold succeeded, failureCount.
  rewrite Hret, Hcaught. split; [done|]. split; [done|]. do 2 f_equal.
  symmetry. apply replicate_as_Forall. split; [done|].
  apply Forall_lookup_2. intros j r Hr.
  destruct (Herrs j r Hr) as (m & -> & Hin). f_equal.
  assert (j < n)%nat as Hj by (apply lookup_lt_Some in Hr; lia).
  apply elem_of_messages_of in Hin. destruct Hf as [_ Hposts].
  specialize (Hposts j Hj).
  rewrite worker_no_match in Hposts.
  - injection Hposts as Hposts. rewrite <- Hposts in Hin.
    by apply list_elem_of_singleton in Hin.
  - left. simpl. lia.
  - simpl. intros c [Hc _]. apply Hno. lia.
Qed.

Lemma no_match_run_fails_witness :
  ∃ out,
    run 2 4 {| events := [EvMessage 1 (PError "Not Found"%string);
                          EvMessage 0 (PError "Not Found"%string)];
               spawn_throws_at := None |} = Some out
    ∧ succeeded out = false
    ∧ failureCount out = 2%nat
    ∧ caught out = Some (AggregateError
        (replicate 2 (RMessage (PError "Not Found"%string)))).
Proof.
  apply (no_match_run_fails (λ _, false) 2 4
           {| events := [EvMessage 1 (PError "Not Found"%string);
                         EvMessage 0 (PError "Not Found"%string)];
              spawn_throws_at := None |}).
  - lia.
  - lia.
  - reflexivity.
  - split; [repeat constructor|].
    intros [|[|i]] Hi; try reflexivity. lia.
  - reflexivity.
Defined.

(** C4: whenever [heavyComputation] returns (with a value, after all
    workers failed, or after a spawn threw) the pool holds exactly the
    workers that were spawned, every one of them stopped and without
    listeners, and the calls made are the [postMessage] of each spawn
    followed by [removeAllListeners(); terminate()] on every spawned
    worker. *)
Theorem run_stops_every_worker n bound env out :
  run n bound env = Some out →
  workers (final out)
    = replicate (spawned_count n (spawn_throws_at env)) dead_worker
  ∧ Forall (λ w, liveness w = Stopped) (workers (final out))
  ∧ calls (final out)
    = spawn_calls n bound (spawned_count n (spawn_throws_at env))
      ++ cleanup_calls (spawned_count n (spawn_throws_at env)).
Proof.
  intros [Hw Hc]%run_final. split; [done|]. split; [|done].
  rewrite Hw. by apply Forall_replicate.
Qed.

Lemma run_stops_every_worker_witness :
  ∃ out,
    run 3 10 {| events := []; spawn_throws_at := Some 2%nat |} = Some out
    ∧ workers (final out) = replicate 2 dead_worker
    ∧ Forall (λ w, liveness w = Stopped) (workers (final out))
    ∧ calls (final out) = spawn_calls 3 10 2 ++ cleanup_calls 2.
Proof.
  eexists. split; [reflexivity|].
  apply (run_stops_every_worker 3 10
           {| events := []; spawn_throws_at := Some 2%nat |}).
  reflexivity.
Defined.

(** C6, as stated, fails in two ways.  A failure to create worker 3 ends
    the run as failed although workers 0 to 2 have neither crashed nor
    reported anything: their promises are still pending.  And on the
    spec's scenario (5 workers, worker 2 crashes, worker 4 finds 4) with
    the messages salt.worker.ts really sends, the run does not succeed. *)
Lemma crash_then_found_counterexample :
  (∃ out,
     run 5 10 {| events := []; spawn_throws_at := Some 3%nat |} = Some out
     ∧ returned out = None
     ∧ promises (final out) = [Pending; Pending; Pending])
  ∧ worker_posts (λ c, c =? 4) (task 5 10 4)
    = Some [PSalt 4; PError "Not Found"%string]
  ∧ ∃ out,
      run 5 10 {| events := [EvError 2 "boom"; EvMessage 4 (PSalt 4);
                             EvMessage 0 (PError "Not Found");
                             EvMessage 1 (PError "Not Found");
                             EvMessage 3 (PError "Not Found");
                             EvMessage 4 (PError "Not Found")];
                  spawn_throws_at := None |} = Some out
      ∧ returned out = None.
Proof.
  split; [|split].
  - eexists. split; [reflexivity|]. done.
  - reflexivity.
  - eexists. split; [reflexivity|]. done.
Qed.

(** C6 (amended): a crash does not settle the race.  Let worker [j] be
    silent during the events [pre], none of which is a success, whatever
    crashes of other workers they contain.  Then after [pre] the run is
    still waiting, and a message of [j] whose [isSuccess] is true arriving
    next makes it return that message.  A run ends as failed in two ways
    only: a worker could not be created, and then the workers created
    before it are stopped with their promises still pending; or every one
    of the [n] workers has failed, each reason of the AggregateError being
    the verdict of an event of that worker (a failure message, an
    ['error'], a non-zero exit). *)
Theorem crash_keeps_racing n bound pre j m post :
  (j < n)%nat →
  truthy (isSuccess_of m) = true →
  Forall (λ ev, worker_of ev ≠ j ∧ ∀ v, verdict ev ≠ Some (Fulfilled v)) pre →
  run n bound {| events := pre; spawn_throws_at := None |} = None
  ∧ (∃ out, run n bound {| events := pre ++ EvMessage j m :: post;
                           spawn_throws_at := None |} = Some out
            ∧ returned out = Some m ∧ caught out = None)
  ∧ (∀ env out,
       run n bound env = Some out → returned out = None →
       (∃ k, spawn_throws_at env = Some k ∧ (k < n)%nat
             ∧ caught out = Some (SpawnFault k)
             ∧ promises (final out) = replicate k Pending)
       ∨ (∃ errs, caught out = Some (AggregateError errs)
                  ∧ length errs = n
                  ∧ ∀ i r, errs !! i = Some r →
                      ∃ ev, ev ∈ events env ∧ worker_of ev = i
                            ∧ verdict ev = Some (Rejected r))).
Proof.
  intros Hj Hm Hpre.
  destruct (await_any_race j m post pre (spawned_pool n bound n) fresh_worker)
    as [Hwait Hwin]; try done.
  { simpl. by apply lookup_replicate_2. }
  { simpl. by apply lookup_replicate_2. }
  { simpl. by apply Forall_replicate. }
  split; [|split].
  - rewrite run_eq. simpl. by rewrite Hwait.
  - rewrite run_eq. simpl. rewrite Hwin. by eexists.
  - intros env out. rewrite run_eq.
    destruct (throws_in n (spawn_throws_at env)) eqn:Ht.
    + intros [= <-] _. left. unfold throws_in, spawned_count in *.
      destruct (spawn_throws_at env) as [k|]; [|done].
      apply bool_decide_eq_true in Ht. exists k. rewrite decide_True by done.
      split; [done|]. split; [done|]. split; [done|]. simpl.
      by destruct (terminate_spec (spawned_pool n bound k)) as (_ & -> & _).
    + destruct (await_any (events env) (spawned_pool n bound n))
        as [[st p']|] eqn:Hrun; [|done].
      apply await_any_outcome in Hrun as (_ & _ & _ & Hrej).
      destruct st as [|v|errs]; [done|by intros [= <-]|].
      intros [= <-] _. right. exists errs.
      destruct (Hrej errs eq_refl) as [Hlen Herrs]. done.
Qed.

Lemma crash_keeps_racing_witness :
  let found := PResp {| isSuccess := true;
                        data := Some {| salt := 4; address := "0xd3ad" |};
                        error := None |} in
  run 5 10 {| events := [EvError 2 "boom"]; spawn_throws_at := None |} = None
  ∧ (∃ out, run 5 10 {| events := [EvError 2 "boom"] ++ EvMessage 4 found :: [];
                        spawn_throws_at := None |} = Some out
            ∧ returned out = Some found ∧ caught out = None)
  ∧ (∀ env out,
       run 5 10 env = Some out → returned out = None →
       (∃ k, spawn_throws_at env = Some k ∧ (k < 5)%nat
             ∧ caught out = Some (SpawnFault k)
             ∧ promises (final out) = replicate k Pending)
       ∨ (∃ errs, caught out = Some (AggregateError errs)
                  ∧ length errs = 5%nat
                  ∧ ∀ i r, errs !! i = Some r →
                      ∃ ev, ev ∈ events env ∧ worker_of ev = i
                            ∧ verdict ev = Some (Rejected r))).
Proof.
  intros found.
  apply (crash_keeps_racing 5 10 [EvError 2 "boom"] 4 found []).
  - lia.
  - reflexivity.
  - repeat constructor; simpl; [lia|discriminate].
Defined.

(** C9: the message listener looks at [isSuccess] alone.  The first
    message of a worker fulfils its pending promise with the message when
    its [isSuccess] is [true], and rejects it with the message otherwise,
    also when the field is absent as in [{ salt }] or in an [Error]; the
    listener is then gone, so later messages of that worker change
    nothing. *)
Theorem message_classified_by_isSuccess i m p w :
  workers p !! i = Some w → onMessage w = true →
  promises p !! i = Some Pending →
  promises (deliver (EvMessage i m) p) !! i
    = Some (if decide (isSuccess_of m = Some true) then Fulfilled m
            else Rejected (RMessage m))
  ∧ (∀ s, promises (deliver (EvMessage i (PSalt s)) p) !! i
          = Some (Rejected (RMessage (PSalt s))))
  ∧ (∀ e, promises (deliver (EvMessage i (PError e)) p) !! i
          = Some (Rejected (RMessage (PError e))))
  ∧ ∀ m', deliver (EvMessage i m') (deliver (EvMessage i m) p)
          = deliver (EvMessage i m) p.
Proof.
  intros Hw Hl Hp.
  assert (Hfirst : ∀ m0, promises (deliver (EvMessage i m0) p) !! i
            = Some (if truthy (isSuccess_of m0) then Fulfilled m0
                    else Rejected (RMessage m0))).
  { intros m0. rewrite deliver_promises. simpl. rewrite Hw. simpl.
    rewrite Hl, bool_decide_eq_true_2 by done. simpl.
    apply list_lookup_insert_eq. by eapply lookup_lt_Some. }
  split; [|split; [|split]].
  - rewrite Hfirst. f_equal.
    by destruct (isSuccess_of m) as [[]|].
  - intros s. by rewrite Hfirst.
  - intros e. by rewrite Hfirst.
  - intros m'. simpl.
    assert (workers (deliver (EvMessage i m) p) !! i
            = Some (set_onMessage false w)) as Hw'.
    { rewrite deliver_workers, list_lookup_alter_eq, Hw. simpl. by rewrite Hl. }
    simpl in Hw'. by rewrite Hw'.
Qed.

Lemma message_classified_by_isSuccess_witness :
  let p := spawned_pool 5 500000 5 in
  let m := PSalt 7 in
  promises (deliver (EvMessage 2 m) p) !! 2%nat
    = Some (if decide (isSuccess_of m = Some true) then Fulfilled m
            else Rejected (RMessage m))
  ∧ (∀ s, promises (deliver (EvMessage 2 (PSalt s)) p) !! 2%nat
          = Some (Rejected (RMessage (PSalt s))))
  ∧ (∀ e, promises (deliver (EvMessage 2 (PError e)) p) !! 2%nat
          = Some (Rejected (RMessage (PError e))))
  ∧ ∀ m', deliver (EvMessage 2 m') (deliver (EvMessage 2 m) p)
          = deliver (EvMessage 2 m) p.
Proof.
  intros p m.
  apply (message_classified_by_isSuccess 2 m p fresh_worker); reflexivity.
Defined.

(** C10: cleanup never touches a promise.  For any pool, [terminate] calls
    [removeAllListeners()] and then [terminate()] on each worker in turn,
    leaves every worker stopped and without listeners, and leaves the
    promises as they were although each running thread exits with code 1;
    afterwards no event of any kind changes a promise. *)
Theorem cleanup_silences_exit p :
  calls (terminate p) = calls p ++ cleanup_calls (length (workers p))
  ∧ workers (terminate p) = (λ _, dead_worker) <$> workers p
  ∧ promises (terminate p) = promises p
  ∧ ∀ ev, promises (deliver ev (terminate p)) = promises (terminate p).
Proof.
  destruct (terminate_spec p) as (Hw & Hp & Hc).
  split; [done|]. split; [done|]. split; [done|].
  intros ev. rewrite deliver_promises, Hw, list_lookup_fmap.
  destruct (workers p !! worker_of ev); simpl; [|done].
  destruct (verdict ev); [|done]. by destruct ev.
Qed.

(** ** The HTTP boundary *)

(** C8, as stated, fails: in a run in which worker 2 answers with a
    well-formed success response and [heavyComputation] returns it, the
    reply of [GET /heavy] has no [found] and no [value]. *)
Lemma getHeavy_response_counterexample :
  ∃ out r,
    heavyComputation
      {| events := [EvMessage 2
                      (PResp {| isSuccess := true;
                                data := Some {| salt := 7;
                                                address := "0xd3ad" |};
                                error := None |})];
         spawn_throws_at := None |} = Some out
    ∧ is_Some (returned out)
    ∧ getHeavy
        {| events := [EvMessage 2
                        (PResp {| isSuccess := true;
                                  data := Some {| salt := 7;
                                                  address := "0xd3ad" |};
                                  error := None |})];
           spawn_throws_at := None |} = Some r
    ∧ r !! "found"%string = None
    ∧ r !! "value"%string = None.
Proof.
  eexists _, _. split; [reflexivity|]. split; [by eexists|].
  split; [reflexivity|]. split; reflexivity.
Qed.

(** C8 (amended): the entry point takes no configuration.  Whenever
    [heavyComputation] returns, every task it posted is
    [{workerNumber: 5, offset: i, max: 500000}] for a worker index
    [i < 5], and [getHeavy] answers [{ data: 'ok' }] whatever the search
    returned. *)
Theorem getHeavy_is_fixed env out :
  heavyComputation env = Some out →
  getHeavy env = Some {[ "data"%string := "ok"%string ]}
  ∧ ∀ i msg, CallPostMessage i msg ∈ calls (final out) →
      (i < 5)%nat
      ∧ msg = {| workerNumber := 5; offset := Z.of_nat i; max := 500000 |}.
Proof.
  intros Hrun. split; [unfold getHeavy; by rewrite Hrun|].
  unfold heavyComputation in Hrun. apply run_final in Hrun as [_ Hc].
  intros i msg Hin. rewrite Hc in Hin. apply elem_of_app in Hin as [Hin|Hin].
  - unfold spawn_calls in Hin.
    apply list_elem_of_fmap in Hin as (k & [= -> ->] & Hk).
    apply elem_of_seq in Hk.
    pose proof (spawned_count_le 5 (spawn_throws_at env)). split; [lia|done].
  - unfold cleanup_calls in Hin.
    apply list_elem_of_bind in Hin as (k & Hin & _).
    apply elem_of_cons in Hin as [|Hin]; [done|].
    by apply list_elem_of_singleton in Hin.
Qed.

Lemma getHeavy_is_fixed_witness :
  ∃ out,
    heavyComputation {| events := []; spawn_throws_at := Some 1%nat |}
      = Some out
    ∧ getHeavy {| events := []; spawn_throws_at := Some 1%nat |}
      = Some {[ "data"%string := "ok"%string ]}
    ∧ ∀ i msg, CallPostMessage i msg ∈ calls (final out) →
        (i < 5)%nat
        ∧ msg = {| workerNumber := 5; offset := Z.of_nat i; max := 500000 |}.
Proof.
  eexists. split; [reflexivity|].
  apply (getHeavy_is_fixed {| events := []; spawn_throws_at := Some 1%nat |}).
  reflexivity.
Defined.

(** ** More on the worker's scan *)

(** The stride is visited in increasing order. *)
Lemma for_loop_record_increasing fuel i bound step acc l :
  1 ≤ step →
  for_loop fuel i bound step (λ c seen, seen ++ [c]) acc = Some l →
  ∃ cs, l = acc ++ cs ∧ StronglySorted Z.lt cs ∧ Forall (λ c, i ≤ c) cs.
Proof.
  intros Hstep. revert i acc.
  induction fuel as [|fuel IH]; intros i acc Hrun; [done|].
  rewrite for_loop_unfold in Hrun. destruct (Z.ltb_spec i bound) as [Hlt|Hge].
  - destruct (IH _ _ Hrun) as (cs & -> & Hs & Hge).
    exists (i :: cs). split; [by rewrite <- app_assoc|]. split.
    + constructor; [done|]. eapply Forall_impl; [exact Hge|]. simpl. lia.
    + constructor; [lia|]. eapply Forall_impl; [exact Hge|]. simpl. lia.
  - injection Hrun as <-. exists []. rewrite app_nil_r.
    split; [done|]. split; constructor.
Qed.

Lemma StronglySorted_filter_lt (P : Z → Prop) `{∀ c, Decision (P c)} cs :
  StronglySorted Z.lt cs → StronglySorted Z.lt (filter P cs).
Proof.
  induction 1 as [|c cs Hs IH Hall]; [constructor|].
  rewrite filter_cons. destruct (decide (P c)); [|done].
  constructor; [done|]. apply Forall_forall. intros c' Hc'.
  apply list_elem_of_filter in Hc' as [_ Hc'].
  by eapply Forall_forall in Hall.
Qed.

(** The number of iterations of the loop. *)
Lemma for_loop_record_length fuel i bound step acc l :
  1 ≤ step →
  for_loop fuel i bound step (λ c seen, seen ++ [c]) acc = Some l →
  length l = (length acc + Z.to_nat ((bound - i + step - 1) / step))%nat.
Proof.
  intros Hstep. revert i acc.
  induction fuel as [|fuel IH]; intros i acc Hrun; [done|].
  rewrite for_loop_unfold in Hrun. destruct (Z.ltb_spec i bound) as [Hlt|Hge].
  - rewrite (IH _ _ Hrun), length_app. simpl.
    replace (bound - i + step - 1) with ((bound - (i + step) + step - 1) + 1 * step)
      by lia.
    rewrite Z.div_add by lia.
    assert (0 ≤ (bound - (i + step) + step - 1) / step)
      by (apply Z.div_pos; lia).
    lia.
  - injection Hrun as <-.
    assert ((bound - i + step - 1) / step ≤ 0) as Hz.
    { destruct (decide (bound - i + step - 1 < 0)).
      - pose proof (Z.div_lt_upper_bound (bound - i + step - 1) step 0). lia.
      - rewrite Z.div_small by lia. lia. }
    lia.
Qed.

(** X1: on a task of positive stride the handler posts the matching
    candidates of its stride, each once, in increasing order, as
    [{ salt }] objects, and then the [Error]; it posts nothing else. *)
Theorem worker_posts_exactly_matches probe data :
  1 ≤ workerNumber data →
  ∃ ms, worker_posts probe data
          = Some ((PSalt <$> ms) ++ [PError "Not Found"%string])
    ∧ StronglySorted Z.lt ms
    ∧ ∀ c, c ∈ ms ↔
        on_stride (offset data) (max data) (workerNumber data) c
        ∧ probe c = true.
Proof.
  intros Hstep.
  destruct (worker_spec probe data Hstep) as (cs & Hscan & Hin & _ & Hposts).
  exists (filter (λ c, probe c = true) cs). split; [done|]. split.
  - apply StronglySorted_filter_lt.
    unfold worker_scans, candidates in Hscan.
    apply for_loop_record_increasing in Hscan as (cs' & Heq & Hs & _); [|done].
    simpl in Heq. by subst.
  - intros c. rewrite list_elem_of_filter, Hin. tauto.
Qed.

Lemma worker_posts_exactly_matches_witness :
  ∃ ms, worker_posts (λ c, c mod 3 =? 1) (task 2 10 1)
          = Some ((PSalt <$> ms) ++ [PError "Not Found"%string])
    ∧ StronglySorted Z.lt ms
    ∧ ∀ c, c ∈ ms ↔
        on_stride (offset (task 2 10 1)) (max (task 2 10 1))
          (workerNumber (task 2 10 1)) c
        ∧ (c mod 3 =? 1) = true.
Proof.
  apply (worker_posts_exactly_matches (λ c, c mod 3 =? 1) (task 2 10 1)).
  simpl. lia.
Defined.

(** X2: the first message of a worker decides what the coordinator sees of
    it: it is [{ salt: c }] exactly when [c] is the least matching
    candidate of the stride, and the [Error] exactly when the stride has
    no match. *)
Theorem worker_first_message probe data :
  1 ≤ workerNumber data →
  ∃ posted, worker_posts probe data = Some posted
    ∧ (∀ c, head posted = Some (PSalt c) ↔
         on_stride (offset data) (max data) (workerNumber data) c
         ∧ probe c = true
         ∧ ∀ c', on_stride (offset data) (max data) (workerNumber data) c' →
                 probe c' = true → c ≤ c')
    ∧ (head posted = Some (PError "Not Found"%string) ↔
         ∀ c, on_stride (offset data) (max data) (workerNumber data) c →
              probe c = false).
Proof.
  intros Hstep.
  destruct (worker_spec probe data Hstep) as (cs & Hscan & Hin & _ & Hposts).
  unfold worker_scans, candidates in Hscan.
  apply for_loop_record_increasing in Hscan as (cs' & Heq & Hs & _); [|done].
  simpl in Heq. subst cs'.
  pose proof (StronglySorted_filter_lt (λ c, probe c = true) cs Hs) as Hsorted.
  assert (Hmem : ∀ c, c ∈ filter (λ c, probe c = true) cs ↔
            on_stride (offset data) (max data) (workerNumber data) c
            ∧ probe c = true).
  { intros c. rewrite list_elem_of_filter, Hin. tauto. }
  eexists. split; [exact Hposts|].
  destruct (filter (λ c, probe c = true) cs) as [|m ms]; simpl.
  - split.
    + intros c. split; [done|]. intros (Hon & Hp & _).
      assert (c ∈ @nil Z) as Hc by (apply Hmem; done). by apply elem_of_nil in Hc.
    + split; [|done]. intros _ c Hon. destruct (probe c) eqn:Hp; [|done].
      assert (c ∈ @nil Z) as Hc by (apply Hmem; done). by apply elem_of_nil in Hc.
  - apply StronglySorted_inv in Hsorted as [_ Hle]. split.
    + intros c. split.
      * intros [= <-]. destruct (proj1 (Hmem m)) as [Hon Hp]; [left|].
        split; [done|]. split; [done|]. intros c' Hon' Hp'.
        assert (c' ∈ m :: ms) as Hc' by (apply Hmem; done).
        apply elem_of_cons in Hc' as [->|Hc']; [lia|].
        eapply Forall_forall in Hle; [|exact Hc']. lia.
      * intros (Hon & Hp & Hmin). do 2 f_equal.
        assert (c ∈ m :: ms) as Hc by (apply Hmem; done).
        destruct (proj1 (Hmem m)) as [Hon' Hp']; [left|].
        specialize (Hmin m Hon' Hp').
        apply elem_of_cons in Hc as [->|Hc]; [done|].
        eapply Forall_forall in Hle; [|exact Hc]. lia.
    + split; [done|]. intros Hno.
      destruct (proj1 (Hmem m)) as [Hon Hp]; [left|].
      rewrite (Hno m Hon) in Hp. done.
Qed.

Lemma worker_first_message_witness :
  ∃ posted, worker_posts (λ c, 3 <? c) (task 3 10 1) = Some posted
    ∧ (∀ c, head posted = Some (PSalt c) ↔
         on_stride (offset (task 3 10 1)) (max (task 3 10 1))
           (workerNumber (task 3 10 1)) c
         ∧ (3 <? c) = true
         ∧ ∀ c', on_stride (offset (task 3 10 1)) (max (task 3 10 1))
                   (workerNumber (task 3 10 1)) c' →
                 (3 <? c') = true → c ≤ c')
    ∧ (head posted = Some (PError "Not Found"%string) ↔
         ∀ c, on_stride (offset (task 3 10 1)) (max (task 3 10 1))
                (workerNumber (task 3 10 1)) c →
              (3 <? c) = false).
Proof.
  apply (worker_first_message (λ c, 3 <? c) (task 3 10 1)).
  simpl. lia.
Defined.

(** X3: a task whose stride is 0 and whose offset, a candidate the
    address test accepts as input (from 0 to 2^53 - 1), is below its bound
    never completes: the loop probes the same candidate for ever, so the
    handler never returns and posts no final message, whatever fuel the
    loop is given. *)
Theorem worker_never_returns_on_zero_stride probe data fuel :
  workerNumber data = 0 →
  0 ≤ offset data < max data → offset data < 2 ^ 53 →
  on_message fuel probe data = None ∧ candidates fuel data = None.
Proof.
  intros Hstep Hlt _. unfold on_message, candidates.
  rewrite !for_loop_diverges; [done|lia..].
Qed.

Lemma worker_never_returns_on_zero_stride_witness :
  on_message 1000 (λ _, true) {| workerNumber := 0; offset := 0; max := 1 |}
    = None
  ∧ candidates 1000 {| workerNumber := 0; offset := 0; max := 1 |} = None.
Proof.
  apply (worker_never_returns_on_zero_stride (λ _, true)
           {| workerNumber := 0; offset := 0; max := 1 |} 1000);
    simpl; lia.
Defined.

(** X4: how many candidates a worker probes: the number of stride points
    below the bound, [ceil((max - offset) / workerNumber)], and none when
    the bound is not above the offset. *)
Theorem worker_scan_length data :
  1 ≤ workerNumber data →
  ∃ cs, worker_scans data = Some cs
    ∧ length cs
      = Z.to_nat ((max data - offset data + workerNumber data - 1)
                  / workerNumber data).
Proof.
  intros Hstep.
  destruct (worker_spec (λ _, false) data Hstep) as (cs & Hscan & _).
  exists cs. split; [done|]. unfold worker_scans, candidates in Hscan.
  by apply for_loop_record_length in Hscan.
Qed.

Lemma worker_scan_length_witness :
  ∃ cs, worker_scans (task 3 10 1) = Some cs
    ∧ length cs
      = Z.to_nat ((max (task 3 10 1) - offset (task 3 10 1)
                   + workerNumber (task 3 10 1) - 1)
                  / workerNumber (task 3 10 1)).
Proof. apply (worker_scan_length (task 3 10 1)). simpl. lia. Defined.

(** X5: the tasks of one run are balanced: two workers of the same pool probe
    numbers of candidates that differ by at most one. *)
Theorem partition_sizes_balanced (workerNum : nat) (bound : Z) (i j : nat) ci cj :
  (i < workerNum)%nat → (j < workerNum)%nat →
  worker_scans (task workerNum bound i) = Some ci →
  worker_scans (task workerNum bound j) = Some cj →
  (length ci ≤ length cj + 1)%nat.
Proof.
  intros Hi Hj Hci Hcj. unfold worker_scans, candidates in Hci, Hcj.
  apply for_loop_record_length in Hci, Hcj; [|simpl; lia..].
  simpl in Hci, Hcj. rewrite Hci, Hcj. simpl.
  set (n := Z.of_nat workerNum) in *.
  assert ((bound - Z.of_nat i + n - 1) / n
          ≤ (bound - Z.of_nat j + n - 1) / n + 1) as Hle.
  { rewrite <- (Z.div_add _ 1 n) by lia. apply Z.div_le_mono; lia. }
  lia.
Qed.

Lemma partition_sizes_balanced_witness :
  (length [0; 3; 6; 9] ≤ length [2; 5; 8] + 1)%nat.
Proof.
  apply (partition_sizes_balanced 3 10 0 2 [0; 3; 6; 9] [2; 5; 8]);
    first [lia | reflexivity].
Defined.

(** ** More on the coordinator *)




(** X7: a value returned by [heavyComputation] is always a message that some
    spawned worker really sent with [isSuccess] set; nothing was caught
    in that case. *)
Theorem run_success_sound n bound env out v :
  run n bound env = Some out → returned out = Some v →
  caught out = None
  ∧ isSuccess_of v = Some true
  ∧ ∃ i, (i < n)%nat ∧ EvMessage i v ∈ events env.
Proof.
  rewrite run_eq. destruct (throws_in n (spawn_throws_at env)).
  { by intros [= <-]. }
  destruct (await_any (events env) (spawned_pool n bound n))
    as [[st p']|] eqn:Hrun; [|done].
  apply await_any_outcome in Hrun as (_ & _ & Hful & _).
  destruct st as [|v'|errs]; [done| |by intros [= <-]].
  intros [= <-]. simpl. intros [= ->]. split; [done|].
  destruct (Hful v eq_refl) as (ev & Hin & Hlt & Hv).
  destruct ev as [i m|i e|i code]; simpl in *.
  - destruct (isSuccess_of m) as [[]|] eqn:Hm; simpl in Hv; try done.
    injection Hv as ->. split; [done|]. by exists i.
  - done.
  - by destruct (decide _).
Qed.

Lemma run_success_sound_witness :
  let found := PResp {| isSuccess := true;
                        data := Some {| salt := 3; address := "0xd3ad" |};
                        error := None |} in
  ∃ out,
    run 2 4 {| events := [EvMessage 1 found]; spawn_throws_at := None |}
      = Some out
    ∧ returned out = Some found
    ∧ caught out = None
    ∧ isSuccess_of found = Some true
    ∧ ∃ i, (i < 2)%nat
           ∧ EvMessage i found
             ∈ events {| events := [EvMessage 1 found];
                         spawn_throws_at := None |}.
Proof.
  intros found. eexists. split; [reflexivity|]. split; [reflexivity|].
  apply (run_success_sound 2 4
           {| events := [EvMessage 1 found]; spawn_throws_at := None |});
    reflexivity.
Defined.

(** X8: progress: when no spawn fails and every worker gets at least one
    message through, in whatever order and whatever else arrives (errors,
    exits), [heavyComputation] returns. *)
Theorem run_returns_when_every_worker_reports n bound env :
  throws_in n (spawn_throws_at env) = false →
  (∀ i, (i < n)%nat → ∃ m, EvMessage i m ∈ events env) →
  ∃ out, run n bound env = Some out.
Proof. intros Ht Hmsg. by apply run_returns. Qed.

Lemma run_returns_when_every_worker_reports_witness :
  ∃ out,
    run 2 4 {| events := [EvExit 0 0; EvMessage 1 (PSalt 3);
                          EvMessage 0 (PError "Not Found")];
               spawn_throws_at := None |} = Some out.
Proof.
  apply (run_returns_when_every_worker_reports 2 4
           {| events := [EvExit 0 0; EvMessage 1 (PSalt 3);
                         EvMessage 0 (PError "Not Found")];
              spawn_throws_at := None |}).
  - reflexivity.
  - intros [|[|i]] Hi.
    + exists (PError "Not Found"). simpl. do 2 right. left.
    + exists (PSalt 3). simpl. right. left.
    + lia.
Defined.

Lemma deliver_all_no_verdict evs p :
  Forall (λ ev, verdict ev = None) evs →
  promises (deliver_all evs p) = promises p.
Proof.
  revert p. induction evs as [|ev evs IH]; intros p Hevs; [done|].
  apply Forall_cons in Hevs as [Hev Hevs].
  rewrite deliver_all_cons, IH by done. rewrite deliver_promises, Hev.
  by destruct (workers p !! worker_of ev).
Qed.

Lemma await_any_no_verdict evs p :
  Promise_any (promises p) = AnyPending →
  Forall (λ ev, verdict ev = None) evs →
  await_any evs p = None.
Proof.
  revert p. induction evs as [|ev evs IH]; intros p Hp Hevs; simpl.
  - by rewrite Hp.
  - apply Forall_cons in Hevs as [Hev Hevs]. rewrite Hp. apply IH; [|done].
    rewrite deliver_promises, Hev. by destruct (workers p !! worker_of ev).
Qed.

(** X9: a worker thread that exits with code 0 settles nothing: the exit
    listener only rejects on a non-zero code.  If all that ever arrives
    are such clean exits, [heavyComputation] never returns. *)
Theorem run_hangs_on_clean_exits n bound evs :
  (1 ≤ n)%nat →
  Forall (λ ev, ∃ i, ev = EvExit i 0) evs →
  run n bound {| events := evs; spawn_throws_at := None |} = None.
Proof.
  intros Hn Hevs. rewrite run_eq. simpl.
  rewrite await_any_no_verdict; [done| |].
  - apply (Promise_any_keeps_racing _ 0%nat); simpl.
    + apply lookup_replicate_2. lia.
    + by apply Forall_replicate.
  - eapply Forall_impl; [exact Hevs|]. by intros ev [i ->].
Qed.

Lemma run_hangs_on_clean_exits_witness :
  run 2 4 {| events := [EvExit 0 0; EvExit 1 0]; spawn_throws_at := None |}
    = None.
Proof.
  apply (run_hangs_on_clean_exits 2 4 [EvExit 0 0; EvExit 1 0]).
  - lia.
  - repeat constructor; by eexists.
Defined.

(** X10: a failure to create worker [k] is caught, not propagated: the run
    returns [undefined], the [catch] clause has seen the fault, no event
    was awaited, and the [k] workers created before it are stopped with
    their promises still pending. *)
Theorem run_swallows_spawn_fault n bound evs k :
  (k < n)%nat →
  ∃ out, run n bound {| events := evs; spawn_throws_at := Some k |} = Some out
    ∧ returned out = None
    ∧ caught out = Some (SpawnFault k)
    ∧ workers (final out) = replicate k dead_worker
    ∧ promises (final out) = replicate k Pending.
Proof.
  intros Hk. eexists. rewrite run_eq. simpl.
  rewrite bool_decide_eq_true_2 by done. split; [done|]. simpl.
  rewrite decide_True by done.
  destruct (terminate_spec (spawned_pool n bound k)) as (-> & -> & _).
  simpl. by rewrite fmap_replicate.
Qed.

Lemma run_swallows_spawn_fault_witness :
  ∃ out, run 5 500000 {| events := [EvMessage 0 (PSalt 5)];
                         spawn_throws_at := Some 3%nat |} = Some out
    ∧ returned out = None
    ∧ caught out = Some (SpawnFault 3)
    ∧ workers (final out) = replicate 3 dead_worker
    ∧ promises (final out) = replicate 3 Pending.
Proof.
  apply (run_swallows_spawn_fault 5 500000 [EvMessage 0 (PSalt 5)] 3). lia.
Defined.

(** X11: a promise settles once: whatever events follow, a promise that is
    fulfilled or rejected keeps its state and its value. *)
Theorem settled_promise_is_final evs p j s :
  promises p !! j = Some s → s ≠ Pending →
  promises (deliver_all evs p) !! j = Some s.
Proof.
  intros Hj Hs.
  destruct (deliver_all_promise_lookup evs p j) as [->|[Hp _]]; [done|].
  congruence.
Qed.

Lemma settled_promise_is_final_witness :
  promises (deliver_all [EvMessage 0 (PResp {| isSuccess := true;
                                               data := None; error := None |});
                         EvError 0 "late"; EvExit 0 1]
              (deliver (EvMessage 0 (PSalt 1)) (spawned_pool 1 4 1))) !! 0%nat
    = Some (Rejected (RMessage (PSalt 1))).
Proof.
  apply (settled_promise_is_final
           [EvMessage 0 (PResp {| isSuccess := true; data := None;
                                  error := None |});
            EvError 0 "late"; EvExit 0 1]
           (deliver (EvMessage 0 (PSalt 1)) (spawned_pool 1 4 1))
           0 (Rejected (RMessage (PSalt 1)))).
  - reflexivity.
  - discriminate.
Defined.

(** ** The earlier revisions *)

Lemma fired_promises once unset i p :
  promises (fired once unset i p) = promises p.
Proof. by destruct once. Qed.

Lemma fired_calls once unset i p : calls (fired once unset i p) = calls p.
Proof. by destruct once. Qed.

Lemma verdict_resolving_settled ev st :
  verdict_resolving ev = Some st → st ≠ Pending.
Proof.
  destruct ev as [i m|i e|i code]; simpl.
  - by intros [= <-].
  - by intros [= <-].
  - destruct (decide _); [|done]. by intros [= <-].
Qed.

Lemma deliver_resolving_promises once ev p :
  promises (deliver_resolving once ev p) =
    match workers p !! worker_of ev, verdict_resolving ev with
    | Some w, Some st =>
        if listens ev w && bool_decide (promises p !! worker_of ev = Some Pending)
        then <[worker_of ev := st]> (promises p)
        else promises p
    | _, _ => promises p
    end.
Proof.
  destruct ev as [i m|i e|i code]; simpl;
    destruct (workers p !! i) as [w|] eqn:Hw; try done.
  - destruct (onMessage w); [|done].
    rewrite settle_promises, fired_promises; simpl;
      by case_decide; [rewrite bool_decide_eq_true_2|rewrite bool_decide_eq_false_2].
  - destruct (onError w); [|done]. unfold error_handler.
    rewrite settle_promises, fired_promises; simpl;
      by case_decide; [rewrite bool_decide_eq_true_2|rewrite bool_decide_eq_false_2].
  - unfold exit_handler. destruct (onExit w), (decide (code ≠ 0)); simpl;
      rewrite ?fired_promises; try done.
    rewrite settle_promises, fired_promises; simpl;
      by case_decide; [rewrite bool_decide_eq_true_2|rewrite bool_decide_eq_false_2].
Qed.

Lemma deliver_resolving_calls once ev p :
  calls (deliver_resolving once ev p) = calls p.
Proof.
  destruct ev as [i m|i e|i code]; simpl;
    destruct (workers p !! i) as [w|]; try done.
  - destruct (onMessage w); [|done]. by rewrite settle_calls, fired_calls.
  - destruct (onError w); [|done]. unfold error_handler.
    by rewrite settle_calls, fired_calls.
  - unfold exit_handler. destruct (onExit w); [|done].
    destruct (decide (code ≠ 0)); by rewrite ?settle_calls, fired_calls.
Qed.

(** On exit events the listeners of all revisions registered with [once]
    agree. *)
Lemma deliver_resolving_exit i code p :
  deliver_resolving true (EvExit i code) p = deliver (EvExit i code) p.
Proof. reflexivity. Qed.

Lemma deliver_resolving_length_workers once ev p :
  length (workers (deliver_resolving once ev p)) = length (workers p).
Proof.
  destruct ev as [i m|i e|i code]; simpl;
    destruct (workers p !! i) as [w|]; try done.
  - destruct (onMessage w); [|done]. rewrite settle_workers.
    destruct once; simpl; by rewrite ?length_alter.
  - destruct (onError w); [|done]. unfold error_handler. rewrite settle_workers.
    destruct once; simpl; by rewrite ?length_alter.
  - unfold exit_handler.
    destruct (onExit w), (decide (code ≠ 0)), once; simpl;
      by rewrite ?settle_workers; simpl; rewrite ?length_alter.
Qed.

Lemma deliver_resolving_length_promises once ev p :
  length (promises (deliver_resolving once ev p)) = length (promises p).
Proof.
  rewrite deliver_resolving_promises.
  destruct (workers p !! _), (verdict_resolving ev); try done.
  destruct (_ && _); [apply length_insert|done].
Qed.

(** Listeners that were removed stay removed, and a stopped thread stays
    stopped, whatever arrives. *)
Lemma deliver_resolving_quiet once ev p j w :
  workers p !! j = Some w → removeAllListeners w = w →
  ∃ w', workers (deliver_resolving once ev p) !! j = Some w'
    ∧ removeAllListeners w' = w'
    ∧ (liveness w = Stopped → liveness w' = Stopped).
Proof.
  intros Hj Hq.
  assert (onMessage w = false ∧ onError w = false ∧ onExit w = false)
    as (Hm & He & Hx) by (destruct w; by injection Hq).
  destruct ev as [i m|i e|i code]; simpl.
  - destruct (decide (i = j)) as [->|Hne].
    + rewrite Hj, Hm. by exists w.
    + destruct (workers p !! i) as [wi|]; [|by exists w].
      destruct (onMessage wi); [|by exists w]. rewrite settle_workers.
      exists w. destruct once; simpl; by rewrite ?list_lookup_alter_ne.
  - destruct (decide (i = j)) as [->|Hne].
    + rewrite Hj, He. by exists w.
    + destruct (workers p !! i) as [wi|]; [|by exists w].
      destruct (onError wi); [|by exists w]. unfold error_handler.
      rewrite settle_workers.
      exists w. destruct once; simpl; by rewrite ?list_lookup_alter_ne.
  - destruct (decide (i = j)) as [->|Hne].
    + rewrite Hj, Hx. simpl. rewrite list_lookup_alter_eq, Hj. simpl.
      eexists. split; [done|]. split; [|done].
      clear Hj Hq. destruct w; simpl in *. by subst.
    + destruct (workers p !! i) as [wi|]; [|by exists w].
      exists w. unfold exit_handler.
      destruct (onExit wi), (decide (code ≠ 0)), once; simpl;
        rewrite ?settle_workers; simpl;
        by rewrite ?list_lookup_alter_ne by done.
Qed.

Lemma deliver_all_resolving_quiet once evs : ∀ p j w,
  workers p !! j = Some w → removeAllListeners w = w →
  ∃ w', workers (deliver_all_resolving once evs p) !! j = Some w'
    ∧ removeAllListeners w' = w'
    ∧ (liveness w = Stopped → liveness w' = Stopped).
Proof.
  induction evs as [|ev evs IH]; intros p j w Hj Hq; [by exists w|].
  destruct (deliver_resolving_quiet once ev p j w Hj Hq) as (w1 & Hw1 & Hq1 & Hs1).
  destruct (IH _ _ _ Hw1 Hq1) as (w2 & Hw2 & Hq2 & Hs2).
  exists w2. split; [exact Hw2|]. split; [done|]. auto.
Qed.

Lemma deliver_all_resolving_length_workers once evs : ∀ p,
  length (workers (deliver_all_resolving once evs p)) = length (workers p).
Proof.
  induction evs as [|ev evs IH]; intros p; [done|].
  simpl. by rewrite IH, deliver_resolving_length_workers.
Qed.

Lemma deliver_all_resolving_calls once evs : ∀ p,
  calls (deliver_all_resolving once evs p) = calls p.
Proof.
  induction evs as [|ev evs IH]; intros p; [done|].
  simpl. by rewrite IH, deliver_resolving_calls.
Qed.

Lemma quiet_stopped_dead w :
  removeAllListeners w = w → liveness w = Stopped → w = dead_worker.
Proof. destruct w; simpl. intros [= ? ? ?] ?. by subst. Qed.

Lemma quiet_set_stopped w :
  removeAllListeners w = w → set_liveness Stopped w = dead_worker.
Proof. destruct w; simpl. intros [= ? ? ?]. by subst. Qed.

(** One step of the sequential cleanup: worker [i] ends dead, the workers
    already dead stay dead, and the two calls are logged. *)
Lemma terminate_one_spec during p i :
  (i < length (workers p))%nat →
  length (workers (RaceRevision.terminate_one during p i)) = length (workers p)
  ∧ workers (RaceRevision.terminate_one during p i) !! i = Some dead_worker
  ∧ (∀ j, workers p !! j = Some dead_worker →
          workers (RaceRevision.terminate_one during p i) !! j
          = Some dead_worker)
  ∧ calls (RaceRevision.terminate_one during p i)
    = calls p ++ [CallRemoveAllListeners i; CallTerminate i].
Proof.
  intros Hi. unfold RaceRevision.terminate_one.
  set (p1 := begin_terminate p i).
  set (p2 := deliver_all_resolving true (during i) p1).
  assert (length (workers p2) = length (workers p)) as Hlen.
  { unfold p2. rewrite deliver_all_resolving_length_workers. unfold p1. simpl.
    by rewrite length_alter. }
  assert (calls p2 = calls p ++ [CallRemoveAllListeners i; CallTerminate i])
    as Hcalls.
  { unfold p2. rewrite deliver_all_resolving_calls. unfold p1. simpl.
    by rewrite <- app_assoc. }
  assert (Hkeep : ∀ j w, workers p1 !! j = Some w → removeAllListeners w = w →
    ∃ w', workers p2 !! j = Some w' ∧ removeAllListeners w' = w'
          ∧ (liveness w = Stopped → liveness w' = Stopped)).
  { intros j w. apply deliver_all_resolving_quiet. }
  destruct (lookup_lt_is_Some_2 (workers p) i Hi) as [w0 Hw0].
  destruct (Hkeep i (removeAllListeners w0)) as (w & Hw & Hq & _).
  { unfold p1. simpl. by rewrite list_lookup_alter_eq, Hw0. }
  { done. }
  assert (onExit w = false) as Hx by (destruct w; by injection Hq).
  assert (Hafter : ∀ j wj, workers p2 !! j = Some wj →
    workers (RaceRevision.await_exit p2 i) !! j
    = Some (if decide (j = i) then set_liveness Stopped wj else wj)).
  { intros j wj Hwj. unfold RaceRevision.await_exit. rewrite Hw.
    destruct (liveness w) eqn:Hl.
    - simpl. rewrite Hw, Hx. simpl. case_decide as Hji.
      + subst j. by rewrite list_lookup_alter_eq, Hwj.
      + by rewrite list_lookup_alter_ne.
    - case_decide as Hji; [|done]. subst j. rewrite Hwj. f_equal.
      rewrite Hw in Hwj. injection Hwj as <-. destruct w; simpl in *. by subst. }
  split; [|split; [|split]].
  - unfold RaceRevision.await_exit. rewrite Hw.
    destruct (liveness w); [|done].
    by rewrite deliver_resolving_length_workers.
  - rewrite (Hafter i w Hw), decide_True by done. f_equal.
    by apply quiet_set_stopped.
  - intros j Hj. destruct (decide (j = i)) as [->|Hne].
    + rewrite (Hafter i w Hw), decide_True by done. f_equal.
      by apply quiet_set_stopped.
    + destruct (Hkeep j dead_worker) as (w' & Hw' & Hq' & Hs').
      { unfold p1. simpl. by rewrite list_lookup_alter_ne. }
      { done. }
      rewrite (Hafter j w' Hw'), decide_False by done. f_equal.
      apply quiet_stopped_dead; [done|]. by apply Hs'.
  - unfold RaceRevision.await_exit. rewrite Hw.
    destruct (liveness w); [|done]. by rewrite deliver_resolving_calls.
Qed.

Lemma race_terminate_fold during k : ∀ a p,
  (a + k ≤ length (workers p))%nat →
  (∀ j, (j < a)%nat → workers p !! j = Some dead_worker) →
  length (workers (foldl (RaceRevision.terminate_one during) p (seq a k)))
    = length (workers p)
  ∧ (∀ j, (j < a + k)%nat →
       workers (foldl (RaceRevision.terminate_one during) p (seq a k)) !! j
       = Some dead_worker)
  ∧ calls (foldl (RaceRevision.terminate_one during) p (seq a k))
    = calls p ++ (seq a k ≫= λ i, [CallRemoveAllListeners i; CallTerminate i]).
Proof.
  induction k as [|k IH]; intros a p Hlen Hdead; simpl.
  - rewrite app_nil_r. split; [done|]. split; [|done].
    intros j Hj. apply Hdead. lia.
  - destruct (terminate_one_spec during p a) as (Hl & Ha & Hkeep & Hc); [lia|].
    destruct (IH (S a) (RaceRevision.terminate_one during p a))
      as (Hl' & Hd' & Hc').
    { rewrite Hl. lia. }
    { intros j Hj. destruct (decide (j = a)) as [->|]; [done|].
      apply Hkeep, Hdead. lia. }
    split; [by rewrite Hl', Hl|]. split.
    + intros j Hj. apply Hd'. lia.
    + rewrite Hc', Hc, <- app_assoc. done.
Qed.

(** The sequential cleanup of the race revision: whatever arrives while
    the exits are awaited, every worker ends stopped and without
    listeners, and the calls are those of the current revision. *)
Lemma race_terminate_spec during p :
  workers (RaceRevision.terminate during p)
    = replicate (length (workers p)) dead_worker
  ∧ calls (RaceRevision.terminate during p)
    = calls p ++ cleanup_calls (length (workers p)).
Proof.
  unfold RaceRevision.terminate.
  destruct (race_terminate_fold during (length (workers p)) 0 p)
    as (Hl & Hd & Hc); [lia|intros j Hj; lia|].
  split; [|done]. symmetry. apply replicate_as_Forall.
  split; [done|]. apply Forall_lookup_2. intros j w Hj.
  rewrite Hd in Hj by (apply lookup_lt_Some in Hj; lia). congruence.
Qed.

Lemma await_race_frame evs : ∀ p st p',
  RaceRevision.await_race evs p = Some (st, p') →
  length (workers p') = length (workers p) ∧ calls p' = calls p
  ∧ st = RaceRevision.Promise_race (promises p') ∧ st ≠ Pending.
Proof.
  induction evs as [|ev evs IH]; intros p st p'; simpl.
  - destruct (RaceRevision.Promise_race (promises p)) eqn:Hr; [done|..];
      intros [= <- <-]; by rewrite Hr.
  - destruct (RaceRevision.Promise_race (promises p)) eqn:Hr.
    + intros (Hl & Hc & Hst)%IH.
      by rewrite Hl, Hc, deliver_resolving_length_workers,
        deliver_resolving_calls.
    + intros [= <- <-]. by rewrite Hr.
    + intros [= <- <-]. by rewrite Hr.
Qed.

Lemma Promise_race_first n i st :
  (i < n)%nat → st ≠ Pending →
  RaceRevision.Promise_race (<[i := st]> (replicate n Pending)) = st
  ∧ RaceRevision.Promise_race (replicate n Pending) = Pending.
Proof.
  intros Hi Hst. unfold RaceRevision.Promise_race.
  assert (Hnone : ∀ k, filter (λ s, s ≠ Pending) (replicate k Pending) = []).
  { induction k as [|k IH]; [done|]. simpl.
    rewrite filter_cons, decide_False by (intros Hne; by apply Hne). done. }
  split; [|by rewrite Hnone].
  revert i Hi. induction n as [|n IH]; intros i Hi; [lia|].
  destruct i as [|i]; simpl.
  - by rewrite filter_cons, decide_True.
  - rewrite filter_cons, decide_False by (intros Hne; by apply Hne).
    apply IH. lia.
Qed.

(** In the race revision the first event that settles a promise decides
    the whole run. *)
Lemma race_first_event n bound ev rest st :
  (worker_of ev < n)%nat → verdict_resolving ev = Some st →
  ∃ p',
    RaceRevision.await_race (ev :: rest) (spawned_pool n bound n)
      = Some (st, p')
    ∧ length (workers p') = n ∧ calls p' = spawn_calls n bound n.
Proof.
  intros Hi Hv. pose proof (verdict_resolving_settled _ _ Hv) as Hst.
  destruct (Promise_race_first n (worker_of ev) st Hi Hst) as [Hfirst Hpend].
  simpl. rewrite Hpend.
  set (p1 := deliver_resolving true ev (spawned_pool n bound n)).
  assert (promises p1 = <[worker_of ev := st]> (replicate n Pending)) as Hp1.
  { unfold p1. rewrite deliver_resolving_promises, Hv. simpl.
    rewrite lookup_replicate_2 by done.
    rewrite bool_decide_eq_true_2 by (by rewrite lookup_replicate_2).
    by destruct ev. }
  exists p1. split; [|split].
  - destruct rest; simpl; rewrite Hp1, Hfirst; by destruct st.
  - unfold p1. rewrite deliver_resolving_length_workers. simpl.
    by rewrite length_replicate.
  - unfold p1. by rewrite deliver_resolving_calls.
Qed.

Lemma race_run_eq n bound env during :
  RaceRevision.run n bound env during =
    if throws_in n (spawn_throws_at env)
    then k ← spawn_throws_at env;
         Some {| RaceRevision.completion :=
                   RaceRevision.Threw (RaceRevision.ThrownSpawnFault k);
                 RaceRevision.final :=
                   RaceRevision.terminate during
                     (spawned_pool n bound
                        (spawned_count n (spawn_throws_at env))) |}
    else match RaceRevision.await_race (events env) (spawned_pool n bound n) with
         | Some (Fulfilled v, p') =>
             Some {| RaceRevision.completion := RaceRevision.Returned v;
                     RaceRevision.final := RaceRevision.terminate during p' |}
         | Some (Rejected r, p') =>
             Some {| RaceRevision.completion :=
                       RaceRevision.Threw (RaceRevision.ThrownReason r);
                     RaceRevision.final := RaceRevision.terminate during p' |}
         | _ => None
         end.
Proof.
  unfold RaceRevision.run. rewrite spawn_loop_eq.
  destruct (throws_in n (spawn_throws_at env)) eqn:Ht; [done|].
  replace (spawned_count n (spawn_throws_at env)) with n; [done|].
  unfold spawned_count, throws_in in *. destruct (spawn_throws_at env); [|done].
  apply bool_decide_eq_false in Ht. by rewrite decide_False.
Qed.

(** X12: race revision: when the very first event to reach the
    coordinator is a message of a spawned worker, that message is the
    result, whatever it says and whatever arrives after it.  A worker that
    reports before all others that its partition holds no match makes the
    whole run return that [Error], also when another worker would have
    found a salt; all workers are stopped afterwards. *)
Theorem race_first_message_wins n bound i m rest during :
  (i < n)%nat →
  ∃ out,
    RaceRevision.run n bound
      {| events := EvMessage i m :: rest; spawn_throws_at := None |} during
      = Some out
    ∧ RaceRevision.completion out = RaceRevision.Returned m
    ∧ workers (RaceRevision.final out) = replicate n dead_worker.
Proof.
  intros Hi.
  destruct (race_first_event n bound (EvMessage i m) rest (Fulfilled m))
    as (p' & Hrace & Hlen & _); [done..|].
  rewrite race_run_eq. cbn [throws_in spawn_throws_at events]. rewrite Hrace.
  eexists. split; [done|]. split; [done|]. simpl.
  destruct (race_terminate_spec during p') as [-> _]. by rewrite Hlen.
Qed.

Lemma race_first_message_wins_witness :
  ∃ out,
    RaceRevision.run 2 4
      {| events := EvMessage 0 (PError "Not Found")
                   :: [EvMessage 1 (PSalt 3)];
         spawn_throws_at := None |} (λ _, [])
      = Some out
    ∧ RaceRevision.completion out
      = RaceRevision.Returned (PError "Not Found")
    ∧ workers (RaceRevision.final out) = replicate 2 dead_worker.
Proof.
  apply (race_first_message_wins 2 4 0 (PError "Not Found")
           [EvMessage 1 (PSalt 3)] (λ _, [])).
  lia.
Defined.

(** X13: race revision: when the very first event to reach the
    coordinator is the ['error'] of a spawned worker, [heavyComputation]
    throws that error, whatever the other workers send afterwards; the
    [finally] block still stops every worker. *)
Theorem race_first_crash_throws n bound i e rest during :
  (i < n)%nat →
  ∃ out,
    RaceRevision.run n bound
      {| events := EvError i e :: rest; spawn_throws_at := None |} during
      = Some out
    ∧ RaceRevision.completion out
      = RaceRevision.Threw (RaceRevision.ThrownReason (RErrorEvent e))
    ∧ workers (RaceRevision.final out) = replicate n dead_worker.
Proof.
  intros Hi.
  destruct (race_first_event n bound (EvError i e) rest
              (Rejected (RErrorEvent e)))
    as (p' & Hrace & Hlen & _); [done..|].
  rewrite race_run_eq. cbn [throws_in spawn_throws_at events]. rewrite Hrace.
  eexists. split; [done|]. split; [done|]. simpl.
  destruct (race_terminate_spec during p') as [-> _]. by rewrite Hlen.
Qed.

Lemma race_first_crash_throws_witness :
  let found := PResp {| isSuccess := true; data := None; error := None |} in
  ∃ out,
    RaceRevision.run 5 10
      {| events := EvError 2 "boom" :: [EvMessage 4 found];
         spawn_throws_at := None |} (λ _, [])
      = Some out
    ∧ RaceRevision.completion out
      = RaceRevision.Threw (RaceRevision.ThrownReason (RErrorEvent "boom"))
    ∧ workers (RaceRevision.final out) = replicate 5 dead_worker.
Proof.
  intros found.
  apply (race_first_crash_throws 5 10 2 "boom" [EvMessage 4 found] (λ _, [])).
  lia.
Defined.

(** X14: race revision: whenever [heavyComputation] completes, by a value or
    by an exception, the workers it spawned are all stopped and without
    listeners, whatever arrived while their exits were awaited one by
    one, and the calls made are those of the current revision. *)
Theorem race_stops_every_worker n bound env during out :
  RaceRevision.run n bound env during = Some out →
  workers (RaceRevision.final out)
    = replicate (spawned_count n (spawn_throws_at env)) dead_worker
  ∧ calls (RaceRevision.final out)
    = spawn_calls n bound (spawned_count n (spawn_throws_at env))
      ++ cleanup_calls (spawned_count n (spawn_throws_at env)).
Proof.
  rewrite race_run_eq. destruct (throws_in n (spawn_throws_at env)) eqn:Ht.
  - destruct (spawn_throws_at env) as [k|]; [|done]. simpl.
    intros [= <-]. simpl.
    destruct (race_terminate_spec during
                (spawned_pool n bound (if decide (k < n)%nat then k else n)))
      as (-> & ->).
    simpl. by rewrite length_replicate.
  - assert (spawned_count n (spawn_throws_at env) = n) as ->.
    { unfold spawned_count, throws_in in *.
      destruct (spawn_throws_at env); [|done].
      apply bool_decide_eq_false in Ht. by rewrite decide_False. }
    destruct (RaceRevision.await_race (events env) (spawned_pool n bound n))
      as [[st p']|] eqn:Hrun; [|done].
    apply await_race_frame in Hrun as (Hlen & Hcalls & _).
    simpl in Hlen, Hcalls. rewrite length_replicate in Hlen.
    destruct (race_terminate_spec during p') as (Hw & Hc).
    rewrite Hlen in Hw, Hc. rewrite Hcalls in Hc.
    destruct st; [done|intros [= <-]; done..].
Qed.

Lemma race_stops_every_worker_witness :
  ∃ out,
    RaceRevision.run 3 10
      {| events := [EvMessage 1 (PSalt 7)]; spawn_throws_at := None |}
      (λ i, if decide (i = 0%nat) then [EvMessage 2 (PError "Not Found")]
            else [])
      = Some out
    ∧ workers (RaceRevision.final out) = replicate 3 dead_worker
    ∧ calls (RaceRevision.final out)
      = spawn_calls 3 10 3 ++ cleanup_calls 3.
Proof.
  eexists. split; [reflexivity|].
  apply (race_stops_every_worker 3 10
           {| events := [EvMessage 1 (PSalt 7)]; spawn_throws_at := None |}
           (λ i, if decide (i = 0%nat) then [EvMessage 2 (PError "Not Found")]
                 else [])).
  reflexivity.
Defined.

Lemma Promise_all_fulfilled ps vs :
  AllRevision.Promise_all ps = AllRevision.AllFulfilled vs →
  ps = Fulfilled <$> vs.
Proof.
  unfold AllRevision.Promise_all. destruct (omap rejection ps); [|done].
  destruct (mapM fulfilment ps) as [vs'|] eqn:Hm; [|done].
  intros [= <-]. apply mapM_Some in Hm.
  induction Hm as [|s v ps vs' Hv _ IH]; [done|].
  destruct s; try done. injection Hv as ->. simpl. by f_equal.
Qed.

Lemma Promise_all_rejected ps r :
  AllRevision.Promise_all ps = AllRevision.AllRejected r →
  ∃ j, ps !! j = Some (Rejected r).
Proof.
  unfold AllRevision.Promise_all.
  destruct (omap rejection ps) as [|r' l] eqn:Ho.
  - by destruct (mapM fulfilment ps).
  - intros [= <-].
    assert (r' ∈ omap rejection ps) as Hr by (rewrite Ho; left).
    apply list_elem_of_omap in Hr as (s & Hs & Hf).
    destruct s; try done. injection Hf as ->.
    by apply list_elem_of_lookup in Hs.
Qed.

Lemma omap_rejection_nil ps :
  Forall (λ s, rejection s = None) ps → omap rejection ps = [].
Proof. induction 1 as [|s ps Hs _ IH]; [done|]. simpl. by rewrite Hs. Qed.

(** While some promise is pending and none is rejected, [Promise.all] is
    pending. *)
Lemma Promise_all_waits ps j :
  ps !! j = Some Pending → Forall (λ s, rejection s = None) ps →
  AllRevision.Promise_all ps = AllRevision.AllPending.
Proof.
  intros Hj Hnone. unfold AllRevision.Promise_all.
  rewrite omap_rejection_nil by done.
  destruct (mapM fulfilment ps) as [vs|] eqn:Hm; [|done].
  apply mapM_Some in Hm.
  eapply Forall2_lookup_l in Hm as (v & _ & Hv); [|exact Hj]. done.
Qed.

Lemma Promise_all_of_fulfilled vs :
  AllRevision.Promise_all (Fulfilled <$> vs) = AllRevision.AllFulfilled vs.
Proof.
  unfold AllRevision.Promise_all. rewrite omap_rejection_nil.
  - assert (mapM fulfilment (Fulfilled <$> vs) = Some vs) as ->; [|done].
    apply mapM_Some. induction vs; constructor; done.
  - apply Forall_fmap, Forall_true. done.
Qed.

Lemma await_all_inv evs : ∀ p st p',
  AllRevision.await_all evs p = Some (st, p') →
  ∃ pre post, evs = pre ++ post
    ∧ p' = deliver_all_resolving false pre p
    ∧ st = AllRevision.Promise_all (promises p')
    ∧ st ≠ AllRevision.AllPending.
Proof.
  induction evs as [|ev evs IH]; intros p st p'; simpl.
  - destruct (AllRevision.Promise_all (promises p)) eqn:Ha; [done|..];
      intros [= <- <-]; exists [], []; by rewrite Ha.
  - destruct (AllRevision.Promise_all (promises p)) eqn:Ha.
    + intros (pre & post & -> & -> & Hst)%IH. by exists (ev :: pre), post.
    + intros [= <- <-]. exists [], (ev :: evs). by rewrite Ha.
    + intros [= <- <-]. exists [], (ev :: evs). by rewrite Ha.
Qed.

Lemma await_all_None evs : ∀ p,
  AllRevision.await_all evs p = None →
  AllRevision.Promise_all (promises (deliver_all_resolving false evs p))
  = AllRevision.AllPending.
Proof.
  induction evs as [|ev evs IH]; intros p; simpl.
  - by destruct (AllRevision.Promise_all (promises p)).
  - destruct (AllRevision.Promise_all (promises p)); [apply IH|done..].
Qed.

(** With [on] listeners a message changes no worker. *)
Lemma deliver_on_message_workers i m p :
  workers (deliver_resolving false (EvMessage i m) p) = workers p.
Proof.
  simpl. destruct (workers p !! i) as [w|]; [|done].
  destruct (onMessage w); [|done]. by rewrite settle_workers.
Qed.

(** The promises of the first revision after messages only: promise [i]
    holds the first message of worker [i], if one has arrived. *)
Lemma deliver_all_messages n evs : ∀ p,
  workers p = replicate n fresh_worker →
  crash_free n evs →
  workers (deliver_all_resolving false evs p) = replicate n fresh_worker
  ∧ ∀ i, promises (deliver_all_resolving false evs p) !! i
         = (λ s, match s, head (messages_of i evs) with
                 | Pending, Some m => Fulfilled m
                 | _, _ => s
                 end) <$> promises p !! i.
Proof.
  induction evs as [|ev evs IH]; intros p Hw Hcf.
  - split; [done|]. intros i. simpl.
    destruct (promises p !! i) as [[]|]; done.
  - apply Forall_cons in Hcf as [Hev Hcf].
    destruct ev as [k m| |]; try done.
    destruct (IH (deliver_resolving false (EvMessage k m) p)) as [Hw' Hp'];
      [by rewrite deliver_on_message_workers|done|].
    split; [exact Hw'|]. intros i.
    change (deliver_all_resolving false (EvMessage k m :: evs) p)
      with (deliver_all_resolving false evs
              (deliver_resolving false (EvMessage k m) p)).
    rewrite Hp', deliver_resolving_promises. simpl.
    rewrite Hw, lookup_replicate_2 by done. simpl.
    destruct (decide (k = i)) as [->|Hne].
    + simpl. case_bool_decide as Hpend.
      * rewrite list_lookup_insert_eq by (by eapply lookup_lt_Some).
        rewrite Hpend. simpl. by destruct (head (messages_of i evs)).
      * destruct (promises p !! i) as [[]|]; try done; simpl;
          by destruct (head (messages_of i evs)).
    + case_bool_decide; [by rewrite list_lookup_insert_ne|done].
Qed.

Lemma all_run_eq n bound evs :
  AllRevision.run n bound evs =
    match AllRevision.await_all evs (spawned_pool n bound n) with
    | Some (AllRevision.AllFulfilled vs, p') =>
        Some {| AllRevision.completion := AllRevision.Returned vs;
                AllRevision.final := p' |}
    | Some (AllRevision.AllRejected r, p') =>
        Some {| AllRevision.completion := AllRevision.Threw r;
                AllRevision.final := p' |}
    | _ => None
    end.
Proof. unfold AllRevision.run. by rewrite spawn_loop_eq. Qed.

Lemma head_messages_of_app i evs more m :
  head (messages_of i evs) = Some m →
  head (messages_of i (evs ++ more)) = Some m.
Proof.
  unfold messages_of. rewrite omap_app.
  destruct (omap _ evs); [done|]. simpl. done.
Qed.

(** X17: first revision, against the worker of this repository: once every
    worker has reported, [heavyComputation] returns one entry per worker,
    in worker order whatever the order of arrival, and entry [i] is the
    first message worker [i] posted.  Nothing is terminated: the workers
    are all still running, their listeners registered. *)
Theorem all_collects_first_messages probe n bound evs :
  (1 ≤ n)%nat → faithful probe n bound evs →
  ∃ out vs,
    AllRevision.run n bound evs = Some out
    ∧ AllRevision.completion out = AllRevision.Returned vs
    ∧ length vs = n
    ∧ (∀ i posted, (i < n)%nat →
         worker_posts probe (task n bound i) = Some posted →
         vs !! i = head posted)
    ∧ workers (AllRevision.final out) = replicate n fresh_worker
    ∧ calls (AllRevision.final out) = spawn_calls n bound n.
Proof.
  intros Hn [Hcf Hposts].
  assert (Hfirst : ∀ i, (i < n)%nat → ∃ m, head (messages_of i evs) = Some m).
  { intros i Hi.
    destruct (worker_spec probe (task n bound i)) as (cs & _ & _ & _ & Hp);
      [simpl; lia|].
    rewrite (Hposts i Hi) in Hp. injection Hp as ->.
    destruct (filter _ cs); simpl; by eexists. }
  assert (Hall : ∀ pre, crash_free n pre →
    workers (deliver_all_resolving false pre (spawned_pool n bound n))
      = replicate n fresh_worker
    ∧ ∀ i, (i < n)%nat →
        promises (deliver_all_resolving false pre (spawned_pool n bound n)) !! i
        = Some (match head (messages_of i pre) with
                | Some m => Fulfilled m
                | None => Pending
                end)).
  { intros pre Hpre.
    destruct (deliver_all_messages n pre (spawned_pool n bound n)) as [Hw Hp];
      [done..|].
    split; [done|]. intros i Hi. rewrite Hp. simpl.
    by rewrite lookup_replicate_2. }
  rewrite all_run_eq.
  destruct (AllRevision.await_all evs (spawned_pool n bound n))
    as [[st p']|] eqn:Hrun.
  - apply await_all_inv in Hrun as (pre & post & -> & -> & Hst & Hne).
    assert (crash_free n pre) as Hpre by (by apply Forall_app in Hcf as [? _]).
    destruct (Hall pre Hpre) as [Hw Hp].
    destruct st as [|vs|r]; [done| |].
    + symmetry in Hst. apply Promise_all_fulfilled in Hst.
      eexists _, vs. split; [done|]. split; [done|]. simpl.
      assert (length vs = n) as Hlen.
      { rewrite <- (length_fmap Fulfilled), <- Hst.
        clear. induction pre as [|ev pre IH] using rev_ind; simpl.
        - by rewrite length_replicate.
        - unfold deliver_all_resolving in *. rewrite foldl_app. simpl.
          by rewrite deliver_resolving_length_promises. }
      split; [done|]. split; [|split; [done|]].
      * intros i posted Hi Hposted. rewrite (Hposts i Hi) in Hposted.
        injection Hposted as <-.
        pose proof (Hp i Hi) as Hpi. rewrite Hst, list_lookup_fmap in Hpi.
        destruct (vs !! i) as [v|] eqn:Hv;
          [|apply lookup_ge_None in Hv; lia].
        simpl in Hpi. destruct (head (messages_of i pre)) as [m|] eqn:Hm;
          [|done].
        injection Hpi as ->. symmetry. by apply head_messages_of_app.
      * by rewrite deliver_all_resolving_calls.
    + symmetry in Hst. apply Promise_all_rejected in Hst as [j Hj].
      assert (j < n)%nat as Hjn.
      { apply lookup_lt_Some in Hj. revert Hj. clear.
        induction pre as [|ev pre IH] using rev_ind; simpl.
        - by rewrite length_replicate.
        - unfold deliver_all_resolving in *. rewrite foldl_app. simpl.
          by rewrite deliver_resolving_length_promises. }
      rewrite (Hp j Hjn) in Hj. by destruct (head (messages_of j pre)).
  - exfalso. apply await_all_None in Hrun.
    destruct (Hall evs Hcf) as [_ Hp].
    assert (promises (deliver_all_resolving false evs (spawned_pool n bound n))
            = Fulfilled <$> ((λ i, default (PError "") (head (messages_of i evs)))
                             <$> seq 0 n)) as Hps.
    { apply list_eq. intros i. rewrite !list_lookup_fmap.
      destruct (decide (i < n)%nat) as [Hi|Hi].
      - rewrite (Hp i Hi). destruct (Hfirst i Hi) as [m Hm]. rewrite Hm.
        rewrite (proj2 (lookup_seq 0 n i i)) by done. simpl. by rewrite Hm.
      - rewrite lookup_ge_None_2, lookup_ge_None_2; [done|..].
        + rewrite length_seq. lia.
        + assert (length (promises (deliver_all_resolving false evs
                    (spawned_pool n bound n))) = n) as ->; [|lia].
          clear. induction evs as [|ev evs IH] using rev_ind; simpl.
          * by rewrite length_replicate.
          * unfold deliver_all_resolving in *. rewrite foldl_app. simpl.
            by rewrite deliver_resolving_length_promises. }
    rewrite Hps, Promise_all_of_fulfilled in Hrun. done.
Qed.

Lemma all_collects_first_messages_witness :
  ∃ out vs,
    AllRevision.run 3 10
      [EvMessage 2 (PError "Not Found"); EvMessage 1 (PSalt 7);
       EvMessage 0 (PError "Not Found"); EvMessage 1 (PError "Not Found")]
      = Some out
    ∧ AllRevision.completion out = AllRevision.Returned vs
    ∧ length vs = 3%nat
    ∧ (∀ i posted, (i < 3)%nat →
         worker_posts (λ c, c =? 7) (task 3 10 i) = Some posted →
         vs !! i = head posted)
    ∧ workers (AllRevision.final out) = replicate 3 fresh_worker
    ∧ calls (AllRevision.final out) = spawn_calls 3 10 3.
Proof.
  apply (all_collects_first_messages (λ c, c =? 7) 3 10).
  - lia.
  - split; [repeat constructor|].
    intros [|[|[|i]]] Hi; try reflexivity. lia.
Defined.

(** With [on] listeners only an ['exit'] changes a worker, and only its
    liveness. *)
Lemma deliver_on_workers ev p :
  workers (deliver_resolving false ev p) =
    match ev with
    | EvExit i _ => alter (set_liveness Stopped) i (workers p)
    | _ => workers p
    end.
Proof.
  destruct ev as [i m|i e|i code]; simpl.
  - destruct (workers p !! i) as [w|]; [|done].
    destruct (onMessage w); [|done]. by rewrite settle_workers.
  - destruct (workers p !! i) as [w|]; [|done].
    destruct (onError w); [|done]. unfold error_handler.
    by rewrite settle_workers.
  - destruct (workers p !! i) as [w|] eqn:Hw.
    + unfold exit_handler.
      destruct (onExit w), (decide (code ≠ 0)); by rewrite ?settle_workers.
    + symmetry. apply list_eq. intros j.
      destruct (decide (i = j)) as [<-|];
        [by rewrite list_lookup_alter_eq, Hw|by rewrite list_lookup_alter_ne].
Qed.

Lemma deliver_all_on_workers evs : ∀ p j w',
  workers (deliver_all_resolving false evs p) !! j = Some w' →
  ∃ w, workers p !! j = Some w
    ∧ onMessage w' = onMessage w ∧ onError w' = onError w
    ∧ onExit w' = onExit w
    ∧ (liveness w' = liveness w
       ∨ liveness w' = Stopped ∧ ∃ code, EvExit j code ∈ evs).
Proof.
  induction evs as [|ev evs IH]; intros p j w' Hw'.
  - exists w'. repeat split; try done. by left.
  - apply IH in Hw' as (w1 & Hw1 & Hm & He & Hx & Hl).
    rewrite deliver_on_workers in Hw1.
    assert (∃ w, workers p !! j = Some w
      ∧ onMessage w1 = onMessage w ∧ onError w1 = onError w
      ∧ onExit w1 = onExit w
      ∧ (liveness w1 = liveness w
         ∨ liveness w1 = Stopped ∧ ∃ code, ev = EvExit j code))
      as (w & Hw & Hm1 & He1 & Hx1 & Hl1).
    { destruct ev as [i m|i e|i code];
        [exists w1; repeat split; try done; by left..|].
      destruct (decide (i = j)) as [->|Hne].
      - rewrite list_lookup_alter_eq in Hw1.
        apply fmap_Some in Hw1 as (w & Hw & ->).
        exists w. repeat split; try done. right. split; [done|]. by exists code.
      - rewrite list_lookup_alter_ne in Hw1 by done.
        exists w1. repeat split; try done. by left. }
    exists w. split; [done|]. split; [congruence|]. split; [congruence|].
    split; [congruence|].
    destruct Hl as [Hl|[Hl [code Hin]]].
    + destruct Hl1 as [Hl1|[Hl1 [code ->]]].
      * left. congruence.
      * right. split; [congruence|]. exists code. left.
    + right. split; [done|]. exists code. by right.
Qed.

(** X18: first revision: [heavyComputation] never stops a worker.  Whenever
    it completes, by a value or by an exception, it has made no call but
    the [postMessage] of each spawn; a worker is only stopped if its own
    ['exit'] arrived, and every worker whose ['exit'] has not arrived
    still has its three listeners. *)
Theorem all_never_stops_a_worker n bound evs out :
  AllRevision.run n bound evs = Some out →
  calls (AllRevision.final out) = spawn_calls n bound n
  ∧ length (workers (AllRevision.final out)) = n
  ∧ ∀ i w, workers (AllRevision.final out) !! i = Some w →
      (liveness w = Stopped → ∃ code, EvExit i code ∈ evs)
      ∧ ((∀ code, EvExit i code ∉ evs) →
         onMessage w = true ∧ onError w = true ∧ onExit w = true).
Proof.
  rewrite all_run_eq.
  destruct (AllRevision.await_all evs (spawned_pool n bound n))
    as [[st p']|] eqn:Hrun; [|done].
  apply await_all_inv in Hrun as (pre & post & -> & -> & _ & _).
  assert (calls (deliver_all_resolving false pre (spawned_pool n bound n))
          = spawn_calls n bound n
    ∧ length (workers (deliver_all_resolving false pre (spawned_pool n bound n)))
      = n
    ∧ ∀ i w,
        workers (deliver_all_resolving false pre (spawned_pool n bound n)) !! i
        = Some w →
        (liveness w = Stopped → ∃ code, EvExit i code ∈ pre ++ post)
        ∧ ((∀ code, EvExit i code ∉ pre ++ post) →
           onMessage w = true ∧ onError w = true ∧ onExit w = true))
    as Hgoal.
  { split; [by rewrite deliver_all_resolving_calls|]. split.
    - rewrite deliver_all_resolving_length_workers. simpl.
      by rewrite length_replicate.
    - intros i w Hw.
      apply deliver_all_on_workers in Hw as (w0 & Hw0 & -> & -> & -> & Hl).
      simpl in Hw0. apply lookup_replicate in Hw0 as [-> _].
      split; [|done]. intros Hs.
      destruct Hl as [Hl|[_ [code Hin]]]; [by rewrite Hs in Hl|].
      exists code. apply elem_of_app. by left. }
  destruct st; [done|intros [= <-]; exact Hgoal..].
Qed.

Lemma all_never_stops_a_worker_witness :
  ∃ out,
    AllRevision.run 2 4 [EvMessage 1 (PSalt 3); EvError 0 "boom"] = Some out
    ∧ calls (AllRevision.final out) = spawn_calls 2 4 2
    ∧ length (workers (AllRevision.final out)) = 2%nat
    ∧ ∀ i w, workers (AllRevision.final out) !! i = Some w →
        (liveness w = Stopped →
         ∃ code, EvExit i code ∈ [EvMessage 1 (PSalt 3); EvError 0 "boom"])
        ∧ ((∀ code,
              EvExit i code ∉ [EvMessage 1 (PSalt 3); EvError 0 "boom"]) →
           onMessage w = true ∧ onError w = true ∧ onExit w = true).
Proof.
  eexists. split; [reflexivity|].
  apply (all_never_stops_a_worker 2 4 [EvMessage 1 (PSalt 3); EvError 0 "boom"]).
  reflexivity.
Defined.

Lemma omap_rejection_insert ps i r :
  Forall (λ s, rejection s = None) ps → (i < length ps)%nat →
  omap rejection (<[i := Rejected r]> ps) = [r].
Proof.
  intros Hnone. revert i.
  induction Hnone as [|s ps Hs Hnone IH]; intros i Hi; [simpl in Hi; lia|].
  destruct i as [|i]; simpl.
  - f_equal. by apply omap_rejection_nil.
  - rewrite Hs. apply IH. simpl in Hi. lia.
Qed.

Lemma await_all_settled evs p :
  AllRevision.Promise_all (promises p) ≠ AllRevision.AllPending →
  AllRevision.await_all evs p
  = Some (AllRevision.Promise_all (promises p), p).
Proof.
  intros Hs. destruct evs; simpl; by destruct (AllRevision.Promise_all _).
Qed.

Lemma await_all_pending ev evs p :
  AllRevision.Promise_all (promises p) = AllRevision.AllPending →
  AllRevision.await_all (ev :: evs) p
  = AllRevision.await_all evs (deliver_resolving false ev p).
Proof. intros Hs. simpl. by rewrite Hs. Qed.

(** The wait of the first revision up to the first crash: while worker
    [i] is silent and only messages arrive, [Promise.all] is pending; the
    ['error'] of [i] then rejects it. *)
Lemma await_all_fail_fast i e post pre : ∀ p w,
  promises p !! i = Some Pending →
  workers p !! i = Some w → onError w = true →
  Forall (λ s, rejection s = None) (promises p) →
  Forall (λ ev, worker_of ev ≠ i ∧ ∃ k m, ev = EvMessage k m) pre →
  AllRevision.await_all (pre ++ EvError i e :: post) p
  = Some (AllRevision.AllRejected (RErrorEvent e),
          deliver_resolving false (EvError i e)
            (deliver_all_resolving false pre p)).
Proof.
  induction pre as [|ev pre IH]; intros p w Hi Hw Hl Hnone Hpre.
  - pose proof (Promise_all_waits _ _ Hi Hnone) as Hwait.
    simpl app. rewrite await_all_pending by done.
    assert (promises (deliver_resolving false (EvError i e) p)
            = <[i := Rejected (RErrorEvent e)]> (promises p)) as Hp'.
    { rewrite deliver_resolving_promises. simpl. rewrite Hw. simpl.
      by rewrite Hl, bool_decide_eq_true_2. }
    assert (AllRevision.Promise_all
              (promises (deliver_resolving false (EvError i e) p))
            = AllRevision.AllRejected (RErrorEvent e)) as Hany.
    { rewrite Hp'. unfold AllRevision.Promise_all.
      rewrite omap_rejection_insert; [done..|]. by eapply lookup_lt_Some. }
    rewrite await_all_settled by (by rewrite Hany). by rewrite Hany.
  - pose proof (Promise_all_waits _ _ Hi Hnone) as Hwait.
    apply Forall_cons in Hpre as [[Hne (k & m & ->)] Hpre].
    simpl in Hne. simpl app. rewrite await_all_pending by done.
    apply (IH (deliver_resolving false (EvMessage k m) p) w); try done.
    + rewrite deliver_resolving_promises. simpl.
      destruct (workers p !! k); [|done].
      destruct (_ && _); [by rewrite list_lookup_insert_ne|done].
    + by rewrite deliver_on_message_workers.
    + rewrite deliver_resolving_promises. simpl.
      destruct (workers p !! k); [|done].
      destruct (_ && _); [|done].
      apply Forall_insert; done.
Qed.

(** X19: first revision: the first crash fails the whole run.  If worker [i]
    raises ['error'] before it has sent anything, while only messages of
    other workers have arrived, [heavyComputation] throws that error at
    once, without waiting for the others and without stopping them. *)
Theorem all_fails_on_first_crash n bound pre i e post :
  (i < n)%nat →
  Forall (λ ev, worker_of ev ≠ i ∧ ∃ k m, ev = EvMessage k m) pre →
  ∃ out,
    AllRevision.run n bound (pre ++ EvError i e :: post) = Some out
    ∧ AllRevision.completion out = AllRevision.Threw (RErrorEvent e)
    ∧ calls (AllRevision.final out) = spawn_calls n bound n.
Proof.
  intros Hi Hpre. rewrite all_run_eq.
  rewrite (await_all_fail_fast i e post pre (spawned_pool n bound n)
             fresh_worker); try done.
  - eexists. split; [done|]. split; [done|]. cbn [AllRevision.final].
    by rewrite deliver_resolving_calls, deliver_all_resolving_calls.
  - simpl. by apply lookup_replicate_2.
  - simpl. by apply lookup_replicate_2.
  - simpl. by apply Forall_replicate.
Qed.

Lemma all_fails_on_first_crash_witness :
  ∃ out,
    AllRevision.run 3 10
      ([EvMessage 1 (PSalt 7)] ++ EvError 2 "boom"
         :: [EvMessage 0 (PError "Not Found")]) = Some out
    ∧ AllRevision.completion out = AllRevision.Threw (RErrorEvent "boom")
    ∧ calls (AllRevision.final out) = spawn_calls 3 10 3.
Proof.
  apply (all_fails_on_first_crash 3 10 [EvMessage 1 (PSalt 7)] 2 "boom"
           [EvMessage 0 (PError "Not Found")]).
  - lia.
  - repeat constructor; simpl; [lia|by eexists _, _].
Defined.

(** A settled promise keeps its state under the listeners of the earlier
    revisions too. *)
Lemma deliver_resolving_settled once ev p j s :
  promises p !! j = Some s → s ≠ Pending →
  promises (deliver_resolving once ev p) !! j = Some s.
Proof.
  intros Hj Hs. rewrite deliver_resolving_promises.
  destruct (workers p !! _), (verdict_resolving ev); try done.
  destruct (listens ev _); simpl; [|done].
  case_bool_decide as Hp; [|done].
  destruct (decide (worker_of ev = j)) as [<-|Hne]; [congruence|].
  by rewrite list_lookup_insert_ne.
Qed.

Lemma deliver_all_resolving_settled once evs : ∀ p j s,
  promises p !! j = Some s → s ≠ Pending →
  promises (deliver_all_resolving once evs p) !! j = Some s.
Proof.
  induction evs as [|ev evs IH]; intros p j s Hj Hs; [done|].
  simpl. apply IH; [|done]. by apply deliver_resolving_settled.
Qed.

Lemma race_await_exit_settled p i j s :
  promises p !! j = Some s → s ≠ Pending →
  promises (RaceRevision.await_exit p i) !! j = Some s.
Proof.
  intros Hj Hs. unfold RaceRevision.await_exit.
  destruct (workers p !! i) as [w|]; [|done].
  destruct (liveness w); [|done]. by apply deliver_resolving_settled.
Qed.

Lemma race_terminate_one_settled during p i j s :
  promises p !! j = Some s → s ≠ Pending →
  promises (RaceRevision.terminate_one during p i) !! j = Some s.
Proof.
  intros Hj Hs. unfold RaceRevision.terminate_one.
  apply race_await_exit_settled; [|done].
  by apply deliver_all_resolving_settled.
Qed.

Lemma race_terminate_fold_settled during ids : ∀ p j s,
  promises p !! j = Some s → s ≠ Pending →
  promises (foldl (RaceRevision.terminate_one during) p ids) !! j = Some s.
Proof.
  induction ids as [|i ids IH]; intros p j s Hj Hs; [done|].
  simpl. apply IH; [|done]. by apply race_terminate_one_settled.
Qed.

(** An exit that is awaited changes no promise when the worker has no
    exit listener. *)
Lemma race_await_exit_quiet p i w :
  workers p !! i = Some w → onExit w = false →
  promises (RaceRevision.await_exit p i) = promises p.
Proof.
  intros Hw Hx. unfold RaceRevision.await_exit. rewrite Hw.
  destruct (liveness w); [|done].
  rewrite deliver_resolving_promises. simpl. by rewrite Hw, Hx.
Qed.

(** Once its listeners are removed a worker is deaf: no event changes a
    promise, and the listeners stay removed. *)
Lemma deliver_deaf ev p :
  Forall (λ w, removeAllListeners w = w) (workers p) →
  promises (deliver ev p) = promises p
  ∧ Forall (λ w, removeAllListeners w = w) (workers (deliver ev p)).
Proof.
  intros Hq. split.
  - rewrite deliver_promises.
    destruct (workers p !! worker_of ev) as [w|] eqn:Hw; [|done].
    destruct (verdict ev); [|done].
    eapply Forall_lookup_1 in Hq; [|exact Hw].
    destruct w; simpl in Hq. injection Hq as ? ? ?. subst.
    by destruct ev.
  - rewrite deliver_workers. destruct ev as [i m|i e|i code];
      apply Forall_alter; try done; intros w _ Hw;
      destruct w; simpl in *; injection Hw as ? ? ?; by subst.
Qed.

Lemma deliver_all_deaf evs : ∀ p,
  Forall (λ w, removeAllListeners w = w) (workers p) →
  promises (deliver_all evs p) = promises p
  ∧ Forall (λ w, removeAllListeners w = w) (workers (deliver_all evs p)).
Proof.
  induction evs as [|ev evs IH]; intros p Hq; [done|].
  destruct (deliver_deaf ev p Hq) as [Hp Hq'].
  destruct (IH _ Hq') as [Hp' Hq'']. rewrite deliver_all_cons.
  split; [congruence|done].
Qed.

(** Whatever arrives while the current [terminate] awaits the exits, no
    promise changes. *)
Lemma terminate_during_promises evs p :
  promises (terminate_during evs p) = promises p.
Proof.
  unfold terminate_during.
  destruct (begin_terminate_foldl (seq 0 (length (workers p))) p)
    as (Hw & Hp & _).
  rewrite foldl_alter_all in Hw.
  destruct (deliver_all_deaf evs
              (foldl begin_terminate p (seq 0 (length (workers p)))))
    as [Hp' Hq].
  { rewrite Hw. apply Forall_fmap, Forall_true. done. }
  destruct (await_exit_foldl (seq 0 (length (workers p)))
              (deliver_all evs
                 (foldl begin_terminate p (seq 0 (length (workers p))))))
    as (_ & -> & _).
  { eapply Forall_impl; [exact Hq|]. intros w Hw'.
    destruct w; simpl in *. by injection Hw' as ? ? ?. }
  congruence.
Qed.

Lemma terminate_during_nil p : terminate_during [] p = terminate p.
Proof. reflexivity. Qed.

(** X15: race revision: the sequential cleanup leaves a window.  While the
    exit of worker 0 is awaited, worker [j] still has its listeners, and
    a message of [j] that arrives in that time settles its promise.  The
    same message, followed by any other events, arriving while the
    current [terminate] awaits the exits finds every listener removed and
    leaves that promise pending. *)
Theorem race_cleanup_window n bound j m :
  (1 ≤ j < n)%nat →
  promises (RaceRevision.terminate
              (λ i, if decide (i = 0%nat) then [EvMessage j m] else [])
              (spawned_pool n bound n)) !! j
    = Some (Fulfilled m)
  ∧ ∀ evs, promises (terminate_during (EvMessage j m :: evs)
                       (spawned_pool n bound n)) !! j
           = Some Pending.
Proof.
  intros [Hj Hn]. split.
  - unfold RaceRevision.terminate. simpl. rewrite length_replicate.
    destruct n as [|n]; [lia|]. simpl.
    apply race_terminate_fold_settled; [|done].
    unfold RaceRevision.terminate_one. rewrite decide_True by done.
    apply race_await_exit_settled; [|done].
    destruct j as [|j]; [lia|]. simpl.
    rewrite lookup_replicate_2 by lia. simpl.
    rewrite settle_promises. simpl. rewrite lookup_replicate_2 by lia.
    rewrite decide_True by done. simpl.
    apply list_lookup_insert_eq. rewrite length_replicate. lia.
  - intros evs. rewrite terminate_during_promises. simpl.
    by apply lookup_replicate_2.
Qed.

Lemma race_cleanup_window_witness :
  promises (RaceRevision.terminate
              (λ i, if decide (i = 0%nat) then [EvMessage 2 (PSalt 7)] else [])
              (spawned_pool 3 10 3)) !! 2%nat
    = Some (Fulfilled (PSalt 7))
  ∧ ∀ evs, promises (terminate_during (EvMessage 2 (PSalt 7) :: evs)
                       (spawned_pool 3 10 3)) !! 2%nat
           = Some Pending.
Proof. apply (race_cleanup_window 3 10 2 (PSalt 7)). lia. Defined.

Lemma race_terminate_fold_promises ids : ∀ p,
  Forall (λ i, (i < length (workers p))%nat) ids →
  promises (foldl (RaceRevision.terminate_one (λ _, [])) p ids) = promises p.
Proof.
  induction ids as [|i ids IH]; intros p Hids; [done|].
  apply Forall_cons in Hids as [Hi Hids]. simpl.
  destruct (terminate_one_spec (λ _, []) p i Hi) as (Hlen & _).
  rewrite IH by (by rewrite Hlen).
  unfold RaceRevision.terminate_one. simpl.
  destruct (lookup_lt_is_Some_2 (workers p) i Hi) as [w Hw].
  rewrite (race_await_exit_quiet _ i (removeAllListeners w)); [done| |done].
  simpl. by rewrite list_lookup_alter_eq, Hw.
Qed.

(** X16: the two cleanups agree when nothing arrives while exits are awaited:
    awaiting the workers one after the other, as the race revision does,
    then leaves exactly the pool that the current [terminate] leaves. *)
Theorem sequential_cleanup_agrees p :
  RaceRevision.terminate (λ _, []) p = terminate p.
Proof.
  destruct (race_terminate_spec (λ _, []) p) as [Hw Hc].
  destruct (terminate_spec p) as (Hw' & Hp' & Hc').
  assert (promises (RaceRevision.terminate (λ _, []) p) = promises p) as Hp.
  { unfold RaceRevision.terminate. apply race_terminate_fold_promises.
    apply Forall_forall. intros i Hi. apply elem_of_seq in Hi. lia. }
  assert (workers (terminate p) = replicate (length (workers p)) dead_worker)
    as Hw''.
  { rewrite Hw'. clear. induction (workers p); simpl; by f_equal. }
  destruct (RaceRevision.terminate (λ _, []) p), (terminate p).
  simpl in *. congruence.
Qed.
